(** * The query engine of exercise 14 (database.ts)

    A shallow embedding of [src/exercises/exercise-14/database.ts]: the
    predicate operators [$eq], [$gt], [$lt], [$in], the rule evaluator
    [ruleHeadless], the combinators [$and] and [$or], the result shapers
    [sort], [projection] and [endHeadless], and [Database.find].

    Conventions of the embedding.
    - A JavaScript exception (and a rejected promise) is a [Throw]; code that
      can raise lives in the [outcome] monad, code that also touches arrays in
      the state-and-error monad [M] over a store of arrays.
    - Arrays live in a store and are named by their location, because
      [Array.prototype.sort] reorders the array it is called on; records are
      never assigned to by the source, so they are plain values.
    - An object has the prototype [Object.prototype], as every object that
      [JSON.parse] or an object literal creates: a read that misses the own
      properties reaches the built-ins of [Object.prototype].  An assignment
      that would give an object another prototype, and a read that goes
      through the prototype of an array, a string, a number or a boolean,
      have no answer inside the embedding.
    - The built-ins of the platform ([JSON.parse], [new RegExp]) are
      parameters of the engine; reference models of them are given for the
      fragment the examples use.  Where a reference model or a coercion
      has no answer inside the embedding it raises [OutsideModel], which is
      not a JavaScript exception. *)

From Stdlib Require Import ZArith Ascii String List Bool Lia Permutation Sorted DecimalString.
From stdpp Require Import base list.
Import ListNotations.
Local Open Scope string_scope.
Local Open Scope Z_scope.
Set Warnings "-register-all".
Set Default Proof Using "Type".

(* ===================================================================== *)
(** ** Outcomes *)
(* ===================================================================== *)

Inductive error :=
| ReadError      (* fs.readFile called back with err *)
| SyntaxError    (* JSON.parse, new RegExp *)
| TypeError      (* property access on null, 'in' on undefined, ... *)
| OutsideModel.  (* not an exception: the embedding has no answer *)

Inductive outcome (A : Type) :=
| Ok (a : A)
| Throw (e : error).
Arguments Ok {A} a.
Arguments Throw {A} e.

Definition obind {A B} (c : outcome A) (f : A -> outcome B) : outcome B :=
  match c with
  | Ok a => f a
  | Throw e => Throw e
  end.

Declare Scope outcome_scope.
Delimit Scope outcome_scope with outcome.
Notation "x <-- c ;; k" := (obind c (fun x => k))
  (at level 100, c at next level, right associativity) : outcome_scope.
Local Open Scope outcome_scope.

(** [xs.map(f)] with a callback that can raise: left to right, the first
    exception ends the traversal. *)
Fixpoint omap {A B} (f : A -> outcome B) (xs : list A) : outcome (list B) :=
  match xs with
  | [] => Ok []
  | x :: xs' => y <-- f x ;; ys <-- omap f xs' ;; Ok (y :: ys)
  end.

(** [xs.filter(p)] with a callback that can raise. *)
Fixpoint ofilter {A} (p : A -> outcome bool) (xs : list A) : outcome (list A) :=
  match xs with
  | [] => Ok []
  | x :: xs' =>
      b <-- p x ;; ys <-- ofilter p xs' ;; Ok (if b then x :: ys else ys)
  end.

(* ===================================================================== *)
(** ** Values *)
(* ===================================================================== *)

(** Numbers.  The source works on IEEE doubles; the embedding keeps the
    integers, with exact arithmetic, and the not-a-number value.  Fractions,
    infinities and rounding have no counterpart here; the reference parser
    and the coercion from strings stop at 2^53, up to where a double holds
    every integer.  Differences and products are used for their sign only
    (the comparator of [sort]), which rounding does not change. *)
Inductive number :=
| NaN
| Num (z : Z).

(** The values [JSON.parse] produces, [undefined], and the built-ins a read
    reaches through the prototype chain.  An object is the list of its own
    properties in the order [Object.keys] enumerates them; its prototype is
    [Object.prototype], as for every object [JSON.parse] or an object literal
    creates.  [VNative name] is what a plain object inherits under [name]:
    the function [Object.prototype.name], and for the name [__proto__] the
    object [Object.prototype] itself (the getter answers the prototype). *)
Inductive value :=
| VUndefined
| VNull
| VBool (b : bool)
| VNum (n : number)
| VStr (s : string)
| VArr (xs : list value)
| VObj (o : list (string * value))
| VNative (name : string).

Definition object := list (string * value).

Inductive jstype :=
  TUndefined | TObject | TBoolean | TNumber | TString | TFunction.

Definition proto_name : string := "__proto__".

Definition typeof (v : value) : jstype :=
  match v with
  | VUndefined => TUndefined
  | VNull | VArr _ | VObj _ => TObject
  | VBool _ => TBoolean
  | VNum _ => TNumber
  | VStr _ => TString
  | VNative name => if String.eqb name proto_name then TObject else TFunction
  end.

(** *** Number operations *)

Definition num_sub (a b : number) : number :=
  match a, b with
  | Num x, Num y => Num (x - y)
  | _, _ => NaN
  end.

Definition num_mul (a b : number) : number :=
  match a, b with
  | Num x, Num y => Num (x * y)
  | _, _ => NaN
  end.

(** [a > b], [a < b] and [a === b] on numbers: false as soon as one side is
    not a number. *)
Definition num_gt (a b : number) : bool :=
  match a, b with
  | Num x, Num y => y <? x
  | _, _ => false
  end.

Definition num_lt (a b : number) : bool :=
  match a, b with
  | Num x, Num y => x <? y
  | _, _ => false
  end.

Definition num_eq (a b : number) : bool :=
  match a, b with
  | Num x, Num y => x =? y
  | _, _ => false
  end.

(** [a === b] where [a] is a string or a number, the only case the source
    has ([$eq], and [indexOf] in [$in]). *)
Definition strict_eq (a b : value) : bool :=
  match a, b with
  | VStr s, VStr t => String.eqb s t
  | VNum x, VNum y => num_eq x y
  | _, _ => false
  end.

(** [arr.indexOf(v) > -1] *)
Definition includes (arr : list value) (v : value) : bool :=
  existsb (fun x => strict_eq x v) arr.

(* ===================================================================== *)
(** ** Strings *)
(* ===================================================================== *)

Definition LF : ascii := "010"%char.

(** The double quote. *)
Definition dquote : ascii := "034"%char.

(** The text [s] between double quotes. *)
Definition quoted (s : string) : string :=
  String dquote (s ++ String dquote EmptyString).

Definition is_digit (c : ascii) : bool :=
  let n := nat_of_ascii c in (48 <=? n)%nat && (n <=? 57)%nat.

Definition is_upper (c : ascii) : bool :=
  let n := nat_of_ascii c in (65 <=? n)%nat && (n <=? 90)%nat.

Definition is_lower (c : ascii) : bool :=
  let n := nat_of_ascii c in (97 <=? n)%nat && (n <=? 122)%nat.

Definition is_ascii7 (c : ascii) : bool := (nat_of_ascii c <? 128)%nat.

(** The word characters of [\b] and [\w]: letters, digits, underscore. *)
Definition is_word_char (c : ascii) : bool :=
  is_digit c || is_upper c || is_lower c || Ascii.eqb c "_"%char.

(** White space that [Number] trims, within ASCII. *)
Definition is_space (c : ascii) : bool :=
  let n := nat_of_ascii c in
  (9 <=? n)%nat && (n <=? 13)%nat || (n =? 32)%nat.

Fixpoint string_forall (p : ascii -> bool) (s : string) : bool :=
  match s with
  | EmptyString => true
  | String c s' => p c && string_forall p s'
  end.

Definition lower_char (c : ascii) : ascii :=
  if is_upper c then ascii_of_nat (nat_of_ascii c + 32) else c.

Fixpoint lower_string (s : string) : string :=
  match s with
  | EmptyString => EmptyString
  | String c s' => String (lower_char c) (lower_string s')
  end.

(** [s.toLocaleLowerCase()].  Defined on ASCII text, where every locale but
    the Turkic ones maps A-Z to a-z and leaves the rest. *)
Definition toLocaleLowerCase (s : string) : outcome string :=
  if string_forall is_ascii7 s then Ok (lower_string s) else Throw OutsideModel.

(** [s.split('\n')] *)
Fixpoint split_lines (s : string) : list string :=
  match s with
  | EmptyString => [EmptyString]
  | String c s' =>
      if Ascii.eqb c LF then EmptyString :: split_lines s'
      else match split_lines s' with
           | l :: ls => String c l :: ls
           | [] => [String c EmptyString]
           end
  end.

(** [ls.join('\n')] *)
Fixpoint join_lines (ls : list string) : string :=
  match ls with
  | [] => EmptyString
  | [l] => l
  | l :: ls' => l ++ String LF (join_lines ls')
  end.

(** [v[0] === 'E'] *)
Definition first_is_E (v : string) : bool :=
  match v with
  | String c _ => Ascii.eqb c "E"%char
  | EmptyString => false
  end.

(** [v.slice(1)] *)
Definition slice1 (v : string) : string :=
  match v with
  | String _ s => s
  | EmptyString => EmptyString
  end.

(** [s.slice(i)] *)
Fixpoint string_drop (i : nat) (s : string) : string :=
  match i, s with
  | O, _ => s
  | S i', String _ s' => string_drop i' s'
  | S _, EmptyString => EmptyString
  end.

Fixpoint string_prefix (p s : string) : option string :=
  match p, s with
  | EmptyString, _ => Some s
  | String a p', String b s' =>
      if Ascii.eqb a b then string_prefix p' s' else None
  | String _ _, EmptyString => None
  end.

Fixpoint digits_value (acc : Z) (s : string) : Z :=
  match s with
  | EmptyString => acc
  | String c s' => digits_value (10 * acc + Z.of_nat (nat_of_ascii c - 48)) s'
  end.

Fixpoint trim_left (s : string) : string :=
  match s with
  | String c s' => if is_space c then trim_left s' else s
  | EmptyString => EmptyString
  end.

Fixpoint string_rev_onto (s acc : string) : string :=
  match s with
  | EmptyString => acc
  | String c s' => string_rev_onto s' (String c acc)
  end.

Definition string_rev (s : string) : string := string_rev_onto s EmptyString.

Definition trim (s : string) : string :=
  string_rev (trim_left (string_rev (trim_left s))).

Definition decimal (z : Z) : string := NilZero.string_of_int (Z.to_int z).

(* ===================================================================== *)
(** ** Objects *)
(* ===================================================================== *)

(** An array index is a canonical numeral below 2^32 - 1.  Keys that are
    array indices are enumerated first, in ascending order; the other keys
    follow in the order they were created. *)
Definition array_index (k : string) : option Z :=
  match k with
  | EmptyString => None
  | String c rest =>
      if string_forall is_digit k
         && (negb (Ascii.eqb c "0"%char) || String.eqb rest EmptyString)
      then let n := digits_value 0 k in
           if n <? 4294967295 then Some n else None
      else None
  end.

Fixpoint obj_lookup (o : object) (k : string) : option value :=
  match o with
  | [] => None
  | (k', v) :: o' => if String.eqb k' k then Some v else obj_lookup o' k
  end.

Definition keys (o : object) : list string := map fst o.

Fixpoint obj_update (o : object) (k : string) (v : value) : object :=
  match o with
  | [] => []
  | (k', v') :: o' =>
      if String.eqb k' k then (k', v) :: o' else (k', v') :: obj_update o' k v
  end.

Fixpoint obj_insert_index (i : Z) (k : string) (v : value) (o : object) : object :=
  match o with
  | [] => [(k, v)]
  | (k', v') :: o' =>
      match array_index k' with
      | Some j =>
          if j <? i then (k', v') :: obj_insert_index i k v o'
          else (k, v) :: o
      | None => (k, v) :: o
      end
  end.

(** Writing the own property [k]: the value is replaced where the key
    exists, and a new key takes its place in the enumeration order.  This is
    how [JSON.parse] fills an object, whatever the key. *)
Definition obj_define (o : object) (k : string) (v : value) : object :=
  match obj_lookup o k with
  | Some _ => obj_update o k v
  | None =>
      match array_index k with
      | Some i => obj_insert_index i k v o
      | None => (o ++ [(k, v)])%list
      end
  end.

(** The property names of [Object.prototype]. *)
Definition Object_prototype_names : list string :=
  [ "constructor"; "__defineGetter__"; "__defineSetter__"; "hasOwnProperty";
    "__lookupGetter__"; "__lookupSetter__"; "isPrototypeOf";
    "propertyIsEnumerable"; "toString"; "valueOf"; "__proto__";
    "toLocaleString" ].

Definition inherited (k : string) : bool :=
  existsb (String.eqb k) Object_prototype_names.

Definition has_own (o : object) (k : string) : bool :=
  match obj_lookup o k with Some _ => true | None => false end.

(** The values the setter of [__proto__] leaves the prototype with: it
    ignores what is neither an object nor null, and [Object.prototype] is
    the prototype already. *)
Definition keeps_prototype (v : value) : bool :=
  match v with
  | VUndefined | VBool _ | VNum _ | VStr _ => true
  | VNative name => String.eqb name proto_name
  | VNull | VArr _ | VObj _ => false
  end.

(** [obj[key] = v] on a plain object.  A key the object owns, or one that
    [Object.prototype] does not define by an accessor, is written as an own
    property ([Object.prototype] has no read-only property).  The key
    [__proto__], when not owned, runs the setter of [Object.prototype]: no
    property is created; a value that is an object or null would become the
    prototype, and reads through a changed prototype are not described
    here. *)
Definition obj_set (o : object) (k : string) (v : value) : outcome object :=
  if negb (has_own o k) && String.eqb k proto_name
  then if keeps_prototype v then Ok o else Throw OutsideModel
  else Ok (obj_define o k v).

Fixpoint string_chars (s : string) : list value :=
  match s with
  | EmptyString => []
  | String c s' => VStr (String c EmptyString) :: string_chars s'
  end.

Definition index_or_undefined (xs : list value) (i : Z) : value :=
  nth (Z.to_nat i) xs VUndefined.

(** [data[key]].  On an object: the own property, else what
    [Object.prototype] holds under the key, else [undefined].  On an array
    and on a string: the length, and under an array index the element or
    [undefined] (no prototype has a property named by a numeral); every
    other key is looked up in [Array.prototype], [String.prototype],
    [Number.prototype] or [Boolean.prototype], whose contents depend on the
    edition of the language and are not described here. *)
Definition getProp (data : value) (key : string) : outcome value :=
  match data with
  | VUndefined | VNull => Throw TypeError
  | VObj o =>
      match obj_lookup o key with
      | Some v => Ok v
      | None => Ok (if inherited key then VNative key else VUndefined)
      end
  | VArr xs =>
      if String.eqb key "length" then Ok (VNum (Num (Z.of_nat (List.length xs))))
      else match array_index key with
           | Some i => Ok (index_or_undefined xs i)
           | None => Throw OutsideModel
           end
  | VStr s =>
      if String.eqb key "length" then Ok (VNum (Num (Z.of_nat (String.length s))))
      else match array_index key with
           | Some i => Ok (index_or_undefined (string_chars s) i)
           | None => Throw OutsideModel
           end
  | VBool _ | VNum _ | VNative _ => Throw OutsideModel
  end.

(** [Object.values(val)]: the own enumerable properties; a built-in function
    and [Object.prototype] have none. *)
Definition Object_values (val : value) : outcome (list value) :=
  match val with
  | VUndefined | VNull => Throw TypeError
  | VObj o => Ok (map snd o)
  | VArr xs => Ok xs
  | VStr s => Ok (string_chars s)
  | VBool _ | VNum _ | VNative _ => Ok []
  end.

(** *** Coercions *)

Fixpoint join_comma (ss : list string) : string :=
  match ss with
  | [] => EmptyString
  | [s] => s
  | s :: ss' => s ++ "," ++ join_comma ss'
  end.

(** The conversion of an object to a primitive, by its methods [valueOf]
    and [toString], in the order the hint gives.  A plain object inherits
    both: [valueOf] answers the object, which is no primitive, and
    [toString] answers [[object Object]].  A value of [JSON.parse] cannot be
    called: an object that owns one under [toString] has no method that
    gives a primitive, whatever the hint and whatever it owns under
    [valueOf], and the conversion raises a TypeError.  When the object owns
    a built-in under one of the two names, what the conversion gives depends
    on that built-in, and is not described here. *)
Definition object_text (o : object) : outcome string :=
  match obj_lookup o "valueOf", obj_lookup o "toString" with
  | Some (VNative _), _ | _, Some (VNative _) => Throw OutsideModel
  | _, Some _ => Throw TypeError
  | _, None => Ok "[object Object]"
  end.

(** [String(v)].  An array is joined from the strings of its elements.  The
    text of a built-in function is left to the implementation. *)
Fixpoint ToString (v : value) : outcome string :=
  match v with
  | VUndefined => Ok "undefined"
  | VNull => Ok "null"
  | VBool true => Ok "true"
  | VBool false => Ok "false"
  | VNum NaN => Ok "NaN"
  | VNum (Num z) => Ok (decimal z)
  | VStr s => Ok s
  | VArr xs =>
      ss <-- (fix elements (xs : list value) : outcome (list string) :=
                match xs with
                | [] => Ok []
                | x :: xs' =>
                    s <-- match x with
                          | VUndefined | VNull => Ok EmptyString
                          | _ => ToString x
                          end ;;
                    ss <-- elements xs' ;;
                    Ok (s :: ss)
                end) xs ;;
      Ok (join_comma ss)
  | VObj o => object_text o
  | VNative name =>
      if String.eqb name proto_name then Ok "[object Object]"
      else Throw OutsideModel
  end.

(** [Number(s)] on a string.  Decimal integers are read; a string that
    cannot start a numeric literal is not a number; for the other numeric
    forms of JavaScript (fractions, exponents, radix prefixes, Infinity), for
    integers beyond 2^53 and for text that is not ASCII the embedding has no
    answer. *)
Definition StringToNumber (s : string) : outcome number :=
  if negb (string_forall is_ascii7 s) then Throw OutsideModel
  else
    match trim s with
    | EmptyString => Ok (Num 0)
    | String c rest =>
        let neg := Ascii.eqb c "-"%char in
        let body := if neg || Ascii.eqb c "+"%char then rest else String c rest in
        match body with
        | EmptyString => Ok NaN
        | String d _ =>
            if string_forall is_digit body
            then if 9007199254740992 <? digits_value 0 body
                 then Throw OutsideModel
                 else Ok (Num (if neg then - digits_value 0 body
                               else digits_value 0 body))
            else if is_digit d || Ascii.eqb d "."%char || Ascii.eqb d "I"%char
                 then Throw OutsideModel
                 else Ok NaN
        end
    end.

(** [Number(v)].  An object is first converted to a primitive: a plain
    object ends as the string [[object Object]], which is not a number,
    unless the conversion raises (see [object_text]); an array ends as the
    string it joins to; a built-in function ends as its text, and
    [Object.prototype] as [[object Object]], neither of which is a number. *)
Definition ToNumber (v : value) : outcome number :=
  match v with
  | VUndefined => Ok NaN
  | VNull => Ok (Num 0)
  | VBool b => Ok (Num (if b then 1 else 0))
  | VNum n => Ok n
  | VStr s => StringToNumber s
  | VArr _ => s <-- ToString v ;; StringToNumber s
  | VObj o => _ <-- object_text o ;; Ok NaN
  | VNative _ => Ok NaN
  end.

(* ===================================================================== *)
(** ** Queries *)
(* ===================================================================== *)

(** [QueryRule]: an operator is absent ([None]) or present with its operand.
    A present operand may still be [undefined] ([VUndefined], and [None] for
    the array of [$in]), as an optional property allows. *)
Record QueryRule := {
  rule_eq : option value;
  rule_gt : option value;
  rule_lt : option value;
  rule_in : option (option (list value))
}.

(** [Param<T>]: field name to rule, in the order of [Object.keys]; the rule
    of a listed field may be [undefined]. *)
Definition Param := list (string * option QueryRule).

Definition param_get (val : Param) (key : string) : option QueryRule :=
  match List.find (fun kv => String.eqb (fst kv) key) val with
  | Some (_, r) => r
  | None => None
  end.

(** [ParamEndRule<T>]: field name to 1 or -1. *)
Definition ParamEndRule := object.

(** [EndRule<T>]; [None] stands for an absent or undefined (falsy) entry. *)
Record EndRule := {
  end_projection : option ParamEndRule;
  end_sort : option ParamEndRule
}.

(** [Query<T>], as the list of its entries in the order of [Object.keys]:
    the keys [$and], [$or] and [$text] with their optional operands, and
    every other key, a field name, with its rule. *)
Inductive query_entry :=
| QAnd (opts : option (list Param))
| QOr (opts : option (list Param))
| QText (phrase : option string)
| QField (key : string) (rule : option QueryRule).

Definition Query := list query_entry.

(* ===================================================================== *)
(** ** Predicate evaluator *)
(* ===================================================================== *)

(** [$eq] *)
Definition op_eq (data : value) (key : string) (operand : value) : outcome bool :=
  val <-- getProp data key ;;
  match typeof val with
  | TString => Ok (strict_eq val operand)
  | TNumber => Ok (strict_eq val operand)
  | _ => Ok false
  end.

(** [$gt] *)
Definition op_gt (data : value) (key : string) (operand : value) : outcome bool :=
  val <-- getProp data key ;;
  match val with
  | VNum n => m <-- ToNumber operand ;; Ok (num_gt n m)
  | _ => Ok false
  end.

(** [$lt] *)
Definition op_lt (data : value) (key : string) (operand : value) : outcome bool :=
  val <-- getProp data key ;;
  match val with
  | VNum n => m <-- ToNumber operand ;; Ok (num_lt n m)
  | _ => Ok false
  end.

(** [$in] *)
Definition op_in (data : value) (key : string) (operand : list value) : outcome bool :=
  val <-- getProp data key ;;
  match typeof val with
  | TNumber => Ok (includes operand val)
  | TString => Ok (includes operand val)
  | _ => Ok false
  end.

(** One [if ('$op' in ruleOpt) { ... if (!result) return false }] block
    followed by the rest of the function. *)
Definition check {A} (present : option A) (test : A -> outcome bool)
    (rest : outcome bool) : outcome bool :=
  match present with
  | Some operand => result <-- test operand ;; if result then rest else Ok false
  | None => rest
  end.

Definition ruleHeadless (data : value) (key : string) (ruleOpt : option QueryRule)
    : outcome bool :=
  match ruleOpt with
  | None => Throw TypeError
  | Some r =>
      check (rule_eq r) (op_eq data key)
        (check (rule_gt r) (op_gt data key)
           (check (rule_lt r) (op_lt data key)
              (check (rule_in r)
                 (fun operand => op_in data key (default [] operand))
                 (Ok true))))
  end.

(* ===================================================================== *)
(** ** Boolean combinators, on the contents of an array *)
(* ===================================================================== *)

Definition rule_closures (opts : list Param) : list (list (value -> outcome bool)) :=
  List.map (fun val =>
    List.map (fun queryKey =>
      fun data => ruleHeadless data queryKey (param_get val queryKey))
      (List.map fst val)) opts.

Definition every (bs : list bool) : bool := forallb (fun value => value) bs.
Definition some (bs : list bool) : bool := existsb (fun value => value) bs.

Definition rule_sets_results (rules : list (list (value -> outcome bool)))
    (val : value) : outcome (list bool) :=
  omap (fun rule => rs <-- omap (fun r => r val) rule ;; Ok (every rs)) rules.

Definition and_records (arr : list value) (opts : list Param) : outcome (list value) :=
  let rules := rule_closures opts in
  ofilter (fun val => bs <-- rule_sets_results rules val ;; Ok (every bs)) arr.

Definition or_records (arr : list value) (opts : list Param) : outcome (list value) :=
  let rules := rule_closures opts in
  ofilter (fun val => bs <-- rule_sets_results rules val ;; Ok (some bs)) arr.

(* ===================================================================== *)
(** ** Full-text matcher *)
(* ===================================================================== *)

(** A compiled pattern: from a subject and a start index, the end index of
    the leftmost match that starts at or after the start index. *)
Definition matcher := string -> nat -> option nat.

(** [re.test(s)] for a pattern with the [g] flag, whose [lastIndex] is read
    and written by every call: the result and the new [lastIndex]. *)
Definition RegExp_test (re : matcher) (lastIndex : nat) (s : string) : bool * nat :=
  if (String.length s <? lastIndex)%nat then (false, 0%nat)
  else match re s lastIndex with
       | Some e => (true, e)
       | None => (false, 0%nat)
       end.

(** [Object.values(val).map(value => ...)], threading [lastIndex] *)
Fixpoint text_tests (re : matcher) (lastIndex : nat) (vals : list value)
    : outcome (list bool * nat) :=
  match vals with
  | [] => Ok ([], lastIndex)
  | value :: vals' =>
      r <-- match value with
            | VStr s =>
                low <-- toLocaleLowerCase s ;; Ok (RegExp_test re lastIndex low)
            | _ => Ok (false, lastIndex)
            end ;;
      rest <-- text_tests re (snd r) vals' ;;
      Ok (fst r :: fst rest, snd rest)
  end.

(** [result.filter(val => Object.values(val).map(...).some(...))] *)
Fixpoint text_records (re : matcher) (lastIndex : nat) (arr : list value)
    : outcome (list value) :=
  match arr with
  | [] => Ok []
  | val :: arr' =>
      vals <-- Object_values val ;;
      r <-- text_tests re lastIndex vals ;;
      rest <-- text_records re (snd r) arr' ;;
      Ok (if some (fst r) then val :: rest else rest)
  end.

Definition backslash_b : string := String "\"%char (String "b"%char EmptyString).

(** [`\\b${word}\\b`] where [word = query['$text']?.toLocaleLowerCase()] *)
Definition text_pattern (phrase : option string) : outcome string :=
  word <-- match phrase with
           | Some p => toLocaleLowerCase p
           | None => Ok "undefined"
           end ;;
  Ok (backslash_b ++ word ++ backslash_b).

(* ===================================================================== *)
(** ** Arrays in a store *)
(* ===================================================================== *)

(** An array is named by its location; the store holds the contents of every
    array allocated so far.  A location comes from [alloc] only. *)
Definition loc := nat.
Abbreviation store := (list (list value)).

Definition M (A : Type) := store -> outcome (A * store).

Definition mret {A} (a : A) : M A := fun st => Ok (a, st).

Definition mbind {A B} (c : M A) (f : A -> M B) : M B :=
  fun st =>
    match c st with
    | Ok (a, st') => f a st'
    | Throw e => Throw e
    end.

Definition lift {A} (c : outcome A) : M A :=
  fun st =>
    match c with
    | Ok a => Ok (a, st)
    | Throw e => Throw e
    end.

Declare Scope store_scope.
Delimit Scope store_scope with M.
Notation "x <~ c ;; k" := (mbind c (fun x => k))
  (at level 100, c at next level, right associativity) : store_scope.

(** The contents of an array. *)
Definition read (a : loc) : M (list value) :=
  fun st =>
    match st !! a with
    | Some xs => Ok (xs, st)
    | None => Throw OutsideModel
    end.

(** A new array. *)
Definition alloc (xs : list value) : M loc :=
  fun st => Ok (length st, (st ++ [xs])%list).

(** Overwriting the contents of an existing array. *)
Definition write (a : loc) (xs : list value) : M unit :=
  fun st =>
    match st !! a with
    | Some _ => Ok (tt, <[a := xs]> st)
    | None => Throw OutsideModel
    end.

(** [keys.forEach(v => { acc = body(acc, v) })] *)
Fixpoint mfold {A B} (body : A -> B -> M A) (acc : A) (xs : list B) : M A :=
  match xs with
  | [] => mret acc
  | x :: xs' => (acc' <~ body acc x ;; mfold body acc' xs')%M
  end.

(** [arr.filter(...)] and [arr.map(...)]: the callbacks run over the
    contents of [arr], left to right, and what they select or produce is
    stored in a new array; [f] is that computation on the contents. *)
Definition new_array (f : list value -> outcome (list value)) (arr : loc)
    : M loc :=
  (xs <~ read arr ;;
   ys <~ lift (f xs) ;;
   alloc ys)%M.

(** [$and] *)
Definition op_and (arr : loc) (opts : list Param) : M loc :=
  new_array (fun xs => and_records xs opts) arr.

(** [$or] *)
Definition op_or (arr : loc) (opts : list Param) : M loc :=
  new_array (fun xs => or_records xs opts) arr.

(* ===================================================================== *)
(** ** Result shaper *)
(* ===================================================================== *)

(** [Array.prototype.sort(comparefn)]: a stable sort, here by insertion,
    that writes the order back into the array it is called on and returns
    that array.  An element moves in front of those the comparator puts
    after it ([comparefn(y, x) > 0]; a NaN answer counts as 0).  Every
    stable sort computes the same order when the comparator is consistent,
    as it is when every key is a number and when every answer is NaN.  When
    it is not (a NaN among numeric keys) the language leaves the order to
    the implementation: the call still returns the array, holding the same
    records, and that is all the statements below use of such a pass. *)
Fixpoint sort_insert (comparefn : value -> value -> outcome number)
    (x : value) (sorted : list value) : outcome (list value) :=
  match sorted with
  | [] => Ok [x]
  | y :: rest =>
      c <-- comparefn y x ;;
      if num_gt c (Num 0) then Ok (x :: y :: rest)
      else r <-- sort_insert comparefn x rest ;; Ok (y :: r)
  end.

Definition sorted_list (comparefn : value -> value -> outcome number)
    (xs : list value) : outcome (list value) :=
  fold_left (fun acc x => s <-- acc ;; sort_insert comparefn x s) xs (Ok []).

Definition Array_sort (arr : loc) (comparefn : value -> value -> outcome number)
    : M loc :=
  (xs <~ read arr ;;
   ys <~ lift (sorted_list comparefn xs) ;;
   _ <~ write arr ys ;;
   mret arr)%M.

(** The comparator of [sort] for the field [v]. *)
Definition compare_by (opt : ParamEndRule) (v : string) (a b : value)
    : outcome number :=
  av <-- getProp a v ;;
  aVal <-- ToNumber av ;;
  bv <-- getProp b v ;;
  bVal <-- ToNumber bv ;;
  d <-- getProp (VObj opt) v ;;
  dir <-- ToNumber d ;;
  Ok (num_mul dir (num_sub aVal bVal)).

(** [sort]: every pass sorts [arr] itself. *)
Definition sort (arr : loc) (opt : ParamEndRule) : M loc :=
  mfold (fun result v => Array_sort arr (compare_by opt v)) arr (keys opt).

(** The body of the [arr.map] callback in [projection]. *)
Definition project_record (fields : list string) (v : value) : outcome value :=
  obj <-- fold_left
            (fun acc key =>
               obj <-- acc ;; x <-- getProp v key ;; obj_set obj key x)
            fields (Ok []) ;;
  Ok (VObj obj).

Definition projection (arr : loc) (opt : ParamEndRule) : M loc :=
  new_array (omap (project_record (keys opt))) arr.

Definition endHeadless (arr : loc) (options : EndRule) : M loc :=
  (result <~ match end_sort options with
             | Some s => sort arr s
             | None => mret arr
             end ;;
   match end_projection options with
   | Some p => projection result p
   | None => mret result
   end)%M.

(* ===================================================================== *)
(** ** Query executor *)
(* ===================================================================== *)

Record Database := {
  filename : string;
  fullTextSearchFieldNames : list string
}.

(** The files that can be read, by path. *)
Definition filesystem := string -> option string.

Definition readFile (fs : filesystem) (path : string) : outcome string :=
  match fs path with
  | Some data => Ok data
  | None => Throw ReadError
  end.

Section Engine.

(** [JSON.parse] and [new RegExp(source, 'g')] *)
Variable JSON_parse : string -> outcome value.
Variable RegExp_new : string -> outcome matcher.

(** The load step: the records of a store text. *)
Definition load (str : string) : outcome (list value) :=
  omap (fun v => JSON_parse (slice1 v))
       (List.filter first_is_E (split_lines str)).

(** The [$text] branch, on the contents of the array. *)
Definition text_search (arr : list value) (phrase : option string)
    : outcome (list value) :=
  source <-- text_pattern phrase ;;
  re <-- RegExp_new source ;;
  text_records re 0%nat arr.

(** The body of [Object.keys(query).forEach]. *)
Definition apply_entry (result : loc) (entry : query_entry) : M loc :=
  match entry with
  | QAnd opts => op_and result (default [] opts)
  | QOr opts => op_or result (default [] opts)
  | QText phrase => new_array (fun xs => text_search xs phrase) result
  | QField key opt =>
      new_array (ofilter (fun val => ruleHeadless val key opt)) result
  end.

(** The steps of [find] after the load. *)
Definition query_records (sqlData : loc) (query : Query)
    (options : option EndRule) : M loc :=
  (result <~ mfold apply_entry sqlData query ;;
   match options with
   | Some o => endHeadless result o
   | None => mret result
   end)%M.

Definition find (db : Database) (fs : filesystem) (query : Query)
    (options : option EndRule) : M loc :=
  (str <~ lift (readFile fs (filename db)) ;;
   records <~ lift (load str) ;;
   sqlData <~ alloc records ;;
   query_records sqlData query options)%M.

(** The settled promise of a call: the array [find] resolves with, or the
    rejection. *)
Definition find_result (db : Database) (fs : filesystem) (query : Query)
    (options : option EndRule) : outcome (list value) :=
  match (result <~ find db fs query options ;; read result)%M [] with
  | Ok (xs, _) => Ok xs
  | Throw e => Throw e
  end.

End Engine.

(* ===================================================================== *)
(** ** Reference models of the built-ins *)
(* ===================================================================== *)

(** *** Whole-word patterns

    [new RegExp(source, 'g')] for the sources [\bword\b] whose word is made
    of word characters: the pattern then has no operator besides the two
    word-boundary assertions.  Other sources are outside the model (they may
    be rejected by the constructor or mean something else than their text). *)

Definition word_at (s : string) (j : nat) : bool :=
  match String.get j s with
  | Some c => is_word_char c
  | None => false
  end.

(** The assertion [\b] at position [j] of [s]. *)
Definition boundary (s : string) (j : nat) : bool :=
  xorb (match j with O => false | S j' => word_at s j' end) (word_at s j).

Definition match_at (w s : string) (j : nat) : bool :=
  boundary s j
  && (match string_prefix w (string_drop j s) with Some _ => true | None => false end)
  && boundary s (j + String.length w).

Fixpoint search_from (w s : string) (j fuel : nat) : option nat :=
  match fuel with
  | O => None
  | S fuel' =>
      if match_at w s j then Some (j + String.length w)%nat
      else search_from w s (S j) fuel'
  end.

Definition word_matcher (w : string) : matcher :=
  fun s lastIndex => search_from w s lastIndex (S (String.length s) - lastIndex).

Definition strip_suffix (suffix s : string) : option string :=
  match string_prefix (string_rev suffix) (string_rev s) with
  | Some r => Some (string_rev r)
  | None => None
  end.

Definition RegExp_word (source : string) : outcome matcher :=
  match string_prefix backslash_b source with
  | Some rest =>
      match strip_suffix backslash_b rest with
      | Some w =>
          if string_forall is_word_char w then Ok (word_matcher w)
          else Throw OutsideModel
      | None => Throw OutsideModel
      end
  | None => Throw OutsideModel
  end.

(** *** JSON texts

    [JSON.parse] for texts whose numbers are integer literals that a double
    holds exactly and whose strings use no [\u] escape. *)

Definition is_json_ws (c : ascii) : bool :=
  let n := nat_of_ascii c in
  (n =? 32)%nat || (n =? 9)%nat || (n =? 10)%nat || (n =? 13)%nat.

Fixpoint skip_ws (s : string) : string :=
  match s with
  | String c s' => if is_json_ws c then skip_ws s' else s
  | EmptyString => EmptyString
  end.

Definition expect (word rest : string) (v : value) : outcome (value * string) :=
  match string_prefix word rest with
  | Some r => Ok (v, r)
  | None => Throw SyntaxError
  end.

Definition unescape (c : ascii) : outcome ascii :=
  if Ascii.eqb c dquote then Ok c
  else if Ascii.eqb c "\"%char then Ok c
  else if Ascii.eqb c "/"%char then Ok c
  else if Ascii.eqb c "b"%char then Ok "008"%char
  else if Ascii.eqb c "f"%char then Ok "012"%char
  else if Ascii.eqb c "n"%char then Ok "010"%char
  else if Ascii.eqb c "r"%char then Ok "013"%char
  else if Ascii.eqb c "t"%char then Ok "009"%char
  else if Ascii.eqb c "u"%char then Throw OutsideModel
  else Throw SyntaxError.

(** The characters of a string literal after its opening quote, and what
    follows the closing quote. *)
Fixpoint parse_string (s : string) : outcome (string * string) :=
  match s with
  | EmptyString => Throw SyntaxError
  | String c s' =>
      if Ascii.eqb c dquote then Ok (EmptyString, s')
      else if Ascii.eqb c "\"%char then
        match s' with
        | EmptyString => Throw SyntaxError
        | String e s'' =>
            c' <-- unescape e ;;
            r <-- parse_string s'' ;;
            Ok (String c' (fst r), snd r)
        end
      else if (nat_of_ascii c <? 32)%nat then Throw SyntaxError
      else r <-- parse_string s' ;; Ok (String c (fst r), snd r)
  end.

Fixpoint span_digits (s : string) : string * string :=
  match s with
  | String c s' =>
      if is_digit c then let r := span_digits s' in (String c (fst r), snd r)
      else (EmptyString, s)
  | EmptyString => (EmptyString, EmptyString)
  end.

Definition starts_fraction (s : string) : bool :=
  match s with
  | String c _ =>
      Ascii.eqb c "."%char || Ascii.eqb c "e"%char || Ascii.eqb c "E"%char
  | EmptyString => false
  end.

(** A number literal, [s] being the text after an optional minus sign. *)
Definition parse_number (neg : bool) (s : string) : outcome (value * string) :=
  let (ds, rest) := span_digits s in
  match ds with
  | EmptyString => Throw SyntaxError
  | String d ds' =>
      let ds := if Ascii.eqb d "0"%char then String d EmptyString else ds in
      let rest := if Ascii.eqb d "0"%char then ds' ++ rest else rest in
      if starts_fraction rest then Throw OutsideModel
      else
        let n := digits_value 0 ds in
        if 9007199254740992 <? n then Throw OutsideModel
        else Ok (VNum (Num (if neg then - n else n)), rest)
  end.

Fixpoint parse_value (fuel : nat) (s : string) : outcome (value * string) :=
  match fuel with
  | O => Throw OutsideModel
  | S fuel' =>
      match skip_ws s with
      | EmptyString => Throw SyntaxError
      | String c rest =>
          if Ascii.eqb c "n"%char then expect "ull" rest VNull
          else if Ascii.eqb c "t"%char then expect "rue" rest (VBool true)
          else if Ascii.eqb c "f"%char then expect "alse" rest (VBool false)
          else if Ascii.eqb c dquote then
            r <-- parse_string rest ;; Ok (VStr (fst r), snd r)
          else if Ascii.eqb c "-"%char then parse_number true rest
          else if is_digit c then parse_number false (String c rest)
          else if Ascii.eqb c "["%char then
            match skip_ws rest with
            | String c' rest' =>
                if Ascii.eqb c' "]"%char then Ok (VArr [], rest')
                else parse_elements fuel' rest []
            | EmptyString => Throw SyntaxError
            end
          else if Ascii.eqb c "{"%char then
            match skip_ws rest with
            | String c' rest' =>
                if Ascii.eqb c' "}"%char then Ok (VObj [], rest')
                else parse_members fuel' rest []
            | EmptyString => Throw SyntaxError
            end
          else Throw SyntaxError
      end
  end

with parse_elements (fuel : nat) (s : string) (acc : list value)
    : outcome (value * string) :=
  match fuel with
  | O => Throw OutsideModel
  | S fuel' =>
      r <-- parse_value fuel' s ;;
      match skip_ws (snd r) with
      | String c rest =>
          if Ascii.eqb c ","%char then parse_elements fuel' rest (fst r :: acc)
          else if Ascii.eqb c "]"%char then Ok (VArr (rev (fst r :: acc)), rest)
          else Throw SyntaxError
      | EmptyString => Throw SyntaxError
      end
  end

with parse_members (fuel : nat) (s : string) (acc : object)
    : outcome (value * string) :=
  match fuel with
  | O => Throw OutsideModel
  | S fuel' =>
      match skip_ws s with
      | String q s1 =>
          if Ascii.eqb q dquote then
            k <-- parse_string s1 ;;
            match skip_ws (snd k) with
            | String colon s2 =>
                if Ascii.eqb colon ":"%char then
                  r <-- parse_value fuel' s2 ;;
                  let acc' := obj_define acc (fst k) (fst r) in
                  match skip_ws (snd r) with
                  | String c rest =>
                      if Ascii.eqb c ","%char then parse_members fuel' rest acc'
                      else if Ascii.eqb c "}"%char then Ok (VObj acc', rest)
                      else Throw SyntaxError
                  | EmptyString => Throw SyntaxError
                  end
                else Throw SyntaxError
            | EmptyString => Throw SyntaxError
            end
          else Throw SyntaxError
      | EmptyString => Throw SyntaxError
      end
  end.

Definition JSON_text (text : string) : outcome value :=
  r <-- parse_value (2 * String.length text + 2) text ;;
  match skip_ws (snd r) with
  | EmptyString => Ok (fst r)
  | String _ _ => Throw SyntaxError
  end.

(** The engine on the reference built-ins. *)
Definition run (db : Database) (fs : filesystem) (query : Query)
    (options : option EndRule) : outcome (list value) :=
  find_result JSON_text RegExp_word db fs query options.

(* ===================================================================== *)
(** ** The store of the examples (specification, section 8) *)
(* ===================================================================== *)

Definition newline : string := String LF EmptyString.

(** The line [E{"name":<name>,"age":<age>}], the name between quotes. *)
Definition person_line (name age : string) : string :=
  "E{" ++ quoted "name" ++ ":" ++ quoted name ++ ","
       ++ quoted "age" ++ ":" ++ age ++ "}".

(** The line [X{"ignored":true}]. *)
Definition ignored_line : string := "X{" ++ quoted "ignored" ++ ":true}".

(** The line [E{"name":<name>}], the name between quotes. *)
Definition name_line (name : string) : string :=
  "E{" ++ quoted "name" ++ ":" ++ quoted name ++ "}".

Definition example_store : string :=
  person_line "Ann" "30" ++ newline ++
  person_line "Bo" "20" ++ newline ++
  ignored_line ++ newline ++
  person_line "Cy" "25".

Definition example_db : Database :=
  {| filename := "db.txt"; fullTextSearchFieldNames := ["name"] |}.

Definition example_fs : filesystem :=
  fun path => if String.eqb path "db.txt" then Some example_store else None.

Definition Ann : value := VObj [("name", VStr "Ann"); ("age", VNum (Num 30))].
Definition Bo : value := VObj [("name", VStr "Bo"); ("age", VNum (Num 20))].
Definition Cy : value := VObj [("name", VStr "Cy"); ("age", VNum (Num 25))].

(** [{$lt: n}] *)
Definition lt_rule (n : Z) : QueryRule :=
  {| rule_eq := None; rule_gt := None;
     rule_lt := Some (VNum (Num n)); rule_in := None |}.

(** [{$eq: s}] *)
Definition eq_rule (s : string) : QueryRule :=
  {| rule_eq := Some (VStr s); rule_gt := None;
     rule_lt := None; rule_in := None |}.

(** [{$gt: n}] *)
Definition gt_rule (n : Z) : QueryRule :=
  {| rule_eq := None; rule_gt := Some (VNum (Num n));
     rule_lt := None; rule_in := None |}.

(* ===================================================================== *)
(** ** Outcomes and stores: basic facts *)
(* ===================================================================== *)

Local Open Scope list_scope.

(* ===================================================================== *)
(** ** Vocabulary of the statements *)
(* ===================================================================== *)



(** A line holds no line feed. *)
Definition one_line (l : string) : Prop :=
  string_forall (fun c => negb (Ascii.eqb c LF)) l = true.



(** The object [projection] builds for one record, when every field read
    [v[key]] answers [g key]. *)
Definition build (g : string -> value) (fields : list string) (acc : object)
    : object :=
  fold_left (fun obj key => obj_define obj key (g key)) fields acc.

(** The listed fields that [projection] writes as own keys: every field
    but [__proto__]. *)
Definition written (fields : list string) : list string :=
  List.filter (fun k => negb (String.eqb k proto_name)) fields.

(** What [v[key]] answers, for a record it can be read from. *)
Definition field (v : value) (key : string) : value :=
  match getProp v key with
  | Ok x => x
  | Throw _ => VUndefined
  end.

Definition project_step (v : value) (acc : outcome object) (key : string)
    : outcome object :=
  obj <-- acc ;; x <-- getProp v key ;; obj_set obj key x.

(** The test the specification describes: the text holds a whole-word match
    of the word, wherever it starts. *)
Definition whole_word_in (word text : string) : bool :=
  match word_matcher word text 0%nat with
  | Some _ => true
  | None => false
  end.

(** The record has a string-typed field value with a whole-word,
    case-insensitive match of the lower-cased phrase. *)
Definition spec_text_keeps (phrase : string) (record : value) : bool :=
  match Object_values record with
  | Ok vals =>
      existsb (fun value =>
                 match value with
                 | VStr s => whole_word_in (lower_string phrase) (lower_string s)
                 | _ => false
                 end) vals
  | Throw _ => false
  end.

Definition two_anns_store : string :=
  (name_line "Ann" ++ newline ++ name_line "Ann Lee")%string.

Definition two_anns_fs : filesystem :=
  fun path => if String.eqb path "db.txt" then Some two_anns_store else None.

(** The call returned a new array and left every array of [st] as it was. *)
Definition returns_new_array (st : store) (res : outcome (loc * store)) : Prop :=
  forall r st', res = Ok (r, st') -> r = length st /\ exists ys, st' = st ++ [ys].

Definition sort_step (comparefn : value -> value -> outcome number)
    (acc : outcome (list value)) (x : value) : outcome (list value) :=
  s <-- acc ;; sort_insert comparefn x s.

(** The passes of [sort] over the fields [ks]. *)
Definition sort_passes (arr : loc) (opt : ParamEndRule) (ks : list string)
    : M loc :=
  mfold (fun result v => Array_sort arr (compare_by opt v)) arr ks.

(** The number held by the field [k] of a record ([0] when it holds none). *)
Definition num_field (k : string) (x : value) : Z :=
  match getProp x k with
  | Ok (VNum (Num z)) => z
  | _ => 0
  end.

(** The field [k] of the record holds a number. *)
Definition numeric (k : string) (x : value) : Prop :=
  exists z, getProp x k = Ok (VNum (Num z)).

(** [a] may stand before [b] when sorting by [k] in the direction [d]. *)
Definition in_order (d : Z) (k : string) (a b : value) : Prop :=
  d * num_field k a <= d * num_field k b.

(** The records of [xs] whose field [k] holds [z], in their order in [xs]. *)
Definition with_key (k : string) (z : Z) (xs : list value) : list value :=
  List.filter (fun x => num_field k x =? z) xs.

(** [Number(x[k])] *)
Definition coerced (k : string) (x : value) : outcome number :=
  v <-- getProp x k ;; ToNumber v.

(** The field [k] of the record coerces to a number. *)
Definition has_sort_key (k : string) (x : value) : Prop :=
  exists z, coerced k x = Ok (Num z).

(** The number the field [k] of a record coerces to ([0] when it coerces to
    none). *)
Definition sort_key (k : string) (x : value) : Z :=
  match coerced k x with
  | Ok (Num z) => z
  | _ => 0
  end.

(** [a] may stand before [b] when sorting by the coerced [k] in the
    direction [d]. *)
Definition key_order (d : Z) (k : string) (a b : value) : Prop :=
  d * sort_key k a <= d * sort_key k b.

(** The records of [xs] whose field [k] coerces to [z], in their order in
    [xs]. *)
Definition with_sort_key (k : string) (z : Z) (xs : list value) : list value :=
  List.filter (fun x => sort_key k x =? z) xs.

(** Records whose age is a string. *)
Definition Ann_text_age : value :=
  VObj [("name", VStr "Ann"); ("age", VStr "30"); ("team", VNum (Num 1))].
Definition Cy_text_age : value :=
  VObj [("name", VStr "Cy"); ("age", VStr " 25"); ("team", VNum (Num 1))].

Definition Ann_team : value :=
  VObj [("name", VStr "Ann"); ("age", VNum (Num 30)); ("team", VNum (Num 1))].
Definition Bo_team : value :=
  VObj [("name", VStr "Bo"); ("age", VNum (Num 20)); ("team", VNum (Num 1))].

(** What [find] resolves or rejects with once the records are loaded. *)
Definition evaluate (RegExp_new : string -> outcome matcher)
    (records : list value) (query : Query) (options : option EndRule)
    : outcome (list value) :=
  match (result <~ query_records RegExp_new 0%nat query options ;;
         read result)%M [records] with
  | Ok (xs, _) => Ok xs
  | Throw e => Throw e
  end.


(* ===================================================================== *)
(** ** The call as a function of the records *)
(* ===================================================================== *)

(** What one key of the query keeps of the records of the array. *)
Definition entry_records (RegExp_new : string -> outcome matcher)
    (entry : query_entry) (xs : list value) : outcome (list value) :=
  match entry with
  | QAnd opts => and_records xs (default [] opts)
  | QOr opts => or_records xs (default [] opts)
  | QText phrase => text_search RegExp_new xs phrase
  | QField key opt => ofilter (fun val => ruleHeadless val key opt) xs
  end.

(** The keys of the query, one after the other. *)
Fixpoint narrow (RegExp_new : string -> outcome matcher) (query : Query)
    (xs : list value) : outcome (list value) :=
  match query with
  | [] => Ok xs
  | entry :: query' =>
      ys <-- entry_records RegExp_new entry xs ;; narrow RegExp_new query' ys
  end.

(** One sorting pass per field. *)
Fixpoint sorted_by (opt : ParamEndRule) (ks : list string) (xs : list value)
    : outcome (list value) :=
  match ks with
  | [] => Ok xs
  | k :: ks' => ys <-- sorted_list (compare_by opt k) xs ;; sorted_by opt ks' ys
  end.

(** The end rule: sort, then project. *)
Definition shape (options : option EndRule) (xs : list value)
    : outcome (list value) :=
  match options with
  | None => Ok xs
  | Some o =>
      ys <-- match end_sort o with
             | Some s => sorted_by s (keys s) xs
             | None => Ok xs
             end ;;
      match end_projection o with
      | Some p => omap (project_record (keys p)) ys
      | None => Ok ys
      end
  end.

(** The computation on the store ends as [res] does: with an array that holds
    the records of [res], or with the exception of [res]. *)
Definition yields (c : outcome (loc * store)) (res : outcome (list value))
    : Prop :=
  match res with
  | Ok ys => exists r st', c = Ok (r, st') /\ st' !! r = Some ys
  | Throw e => c = Throw e
  end.

(** [{sort: {age: -1}, projection: {name: 1}}] *)
Definition example_end_rule : EndRule :=
  {| end_projection := Some [("name", VNum (Num 1))];
     end_sort := Some [("age", VNum (Num (-1)))] |}.

(** [{}], the rule with no operator. *)
Definition empty_rule : QueryRule :=
  {| rule_eq := None; rule_gt := None; rule_lt := None; rule_in := None |}.

(** [{$gt: a, $lt: b}] *)
Definition range_rule (a b : Z) : QueryRule :=
  {| rule_eq := None; rule_gt := Some (VNum (Num a));
     rule_lt := Some (VNum (Num b)); rule_in := None |}.

(** The test of [$and] and of [$or] on one record. *)
Definition and_test (opts : list Param) (val : value) : outcome bool :=
  bs <-- rule_sets_results (rule_closures opts) val ;; Ok (every bs).

Definition or_test (opts : list Param) (val : value) : outcome bool :=
  bs <-- rule_sets_results (rule_closures opts) val ;; Ok (some bs).

(** The key is [$text]. *)
Definition is_text (entry : query_entry) : bool :=
  match entry with
  | QText _ => true
  | _ => false
  end.

(** The comparator leaves [x] behind [y]: it answers, and not with a
    positive number. *)
Definition stays_behind (comparefn : value -> value -> outcome number)
    (y x : value) : Prop :=
  exists c, comparefn y x = Ok c /\ num_gt c (Num 0) = false.

(** The value is a string in which the pattern has a match, searched from
    the start of the lower-cased string. *)
Definition found (re : matcher) (value : value) : bool :=
  match value with
  | VStr s =>
      match re (lower_string s) 0%nat with
      | Some _ => true
      | None => false
      end
  | _ => false
  end.

(** Some value of the record is a string with a match. *)
Definition record_found (re : matcher) (val : value) : bool :=
  match Object_values val with
  | Ok vals => existsb (found re) vals
  | Throw _ => false
  end.

(** A match found from a later start is a match of the string: the search
    from the start finds one too. *)
Definition searches_forward (re : matcher) : Prop :=
  forall s i e, re s i = Some e -> re s 0%nat <> None.












(** The other end-to-end scenarios of the specification (section 8). *)
Example example_or_query :
  run example_db example_fs
    [QOr (Some [[("age", Some (lt_rule 22))]; [("name", Some (eq_rule "Cy"))]])]
    None
  = Ok [Bo; Cy].
Proof. reflexivity. Qed.

Example example_sort_and_projection :
  run example_db example_fs []
    (Some {| end_projection := Some [("name", VNum (Num 1))];
             end_sort := Some [("age", VNum (Num (-1)))] |})
  = Ok [VObj [("name", VStr "Ann")]; VObj [("name", VStr "Cy")];
        VObj [("name", VStr "Bo")]].
Proof. reflexivity. Qed.

Lemma ofilter_const_true {A} (p : A -> outcome bool) (xs : list A) :
  (forall x, p x = Ok true) -> ofilter p xs = Ok xs.
Proof.
  intros Hp. induction xs as [|x xs IH]; simpl; [done|].
  by rewrite Hp, IH.
Qed.

Lemma ofilter_const_false {A} (p : A -> outcome bool) (xs : list A) :
  (forall x, p x = Ok false) -> ofilter p xs = Ok [].
Proof.
  intros Hp. induction xs as [|x xs IH]; simpl; [done|].
  by rewrite Hp, IH.
Qed.

Lemma lookup_alloc (st : store) (xs : list value) :
  (st ++ [xs]) !! length st = Some xs.
Proof. by rewrite lookup_app_r, Nat.sub_diag by lia. Qed.

(* ===================================================================== *)
(** ** The combinators on an empty array of rule sets *)
(* ===================================================================== *)

(** C6. With an empty [ruleSets] array [$and] keeps every record: the array
    it returns is a new one holding the records of the input array, in the
    same order, and the input array is left as it was. *)
Theorem and_empty_is_identity (st : store) (arr : loc) (xs : list value) :
  st !! arr = Some xs ->
  and_records xs [] = Ok xs /\
  op_and arr [] st = Ok (length st, st ++ [xs]).
Proof.
  intros Harr.
  assert (Hrec : and_records xs [] = Ok xs).
  { unfold and_records. by apply ofilter_const_true. }
  split; [exact Hrec|].
  unfold op_and, new_array, mbind, read, lift, alloc. by rewrite Harr, Hrec.
Qed.

Lemma and_empty_is_identity_witness :
  [[Ann; Bo; Cy]] !! 0%nat = Some [Ann; Bo; Cy] /\
  op_and 0%nat [] [[Ann; Bo; Cy]] = Ok (1%nat, [[Ann; Bo; Cy]; [Ann; Bo; Cy]]).
Proof.
  split; [reflexivity|].
  exact (proj2 (and_empty_is_identity [[Ann; Bo; Cy]] 0%nat [Ann; Bo; Cy] eq_refl)).
Defined.

(** C7. With an empty [ruleSets] array [$or] keeps no record: the array it
    returns is a new, empty one. *)
Theorem or_empty_is_empty (st : store) (arr : loc) (xs : list value) :
  st !! arr = Some xs ->
  or_records xs [] = Ok [] /\
  op_or arr [] st = Ok (length st, st ++ [[]]).
Proof.
  intros Harr.
  assert (Hrec : or_records xs [] = Ok []).
  { unfold or_records. by apply ofilter_const_false. }
  split; [exact Hrec|].
  unfold op_or, new_array, mbind, read, lift, alloc. by rewrite Harr, Hrec.
Qed.

Lemma or_empty_is_empty_witness :
  [[Ann; Bo; Cy]] !! 0%nat = Some [Ann; Bo; Cy] /\
  op_or 0%nat [] [[Ann; Bo; Cy]] = Ok (1%nat, [[Ann; Bo; Cy]; []]).
Proof.
  split; [reflexivity|].
  exact (proj2 (or_empty_is_empty [[Ann; Bo; Cy]] 0%nat [Ann; Bo; Cy] eq_refl)).
Defined.

(* ===================================================================== *)
(** ** Operators on a field of another type *)
(* ===================================================================== *)













(* ===================================================================== *)
(** ** The record loader *)
(* ===================================================================== *)

Lemma split_lines_not_nil (s : string) : split_lines s <> [].
Proof.
  induction s as [|c s IH]; simpl; [done|].
  destruct (Ascii.eqb c LF); [done|]. by destruct (split_lines s).
Qed.

Lemma split_one_line (l : string) : one_line l -> split_lines l = [l].
Proof.
  unfold one_line. induction l as [|c l IH]; simpl; [done|].
  intros [Hc Hl]%andb_prop. destruct (Ascii.eqb c LF); [done|].
  by rewrite IH.
Qed.

Lemma split_lines_append (l rest : string) :
  one_line l ->
  split_lines (l ++ String LF rest)%string = l :: split_lines rest.
Proof.
  unfold one_line. induction l as [|c l IH]; simpl.
  - done.
  - intros [Hc Hl]%andb_prop. destruct (Ascii.eqb c LF); [done|].
    by rewrite IH.
Qed.

(** Splitting undoes joining: the lines of a text are its lines. *)
Lemma split_join_lines (ls : list string) :
  ls <> [] -> Forall one_line ls -> split_lines (join_lines ls) = ls.
Proof.
  induction ls as [|l ls IH]; [done|].
  intros _ Hall. inversion Hall as [|? ? Hl Hls]; subst.
  destruct ls as [|l' ls].
  - simpl. by apply split_one_line.
  - change (join_lines (l :: l' :: ls))
      with (l ++ String LF (join_lines (l' :: ls)))%string.
    rewrite split_lines_append by done. f_equal. by apply IH.
Qed.

Lemma omap_Forall2 {A B} (f : A -> outcome B) (xs : list A) (ys : list B) :
  omap f xs = Ok ys <-> Forall2 (fun x y => f x = Ok y) xs ys.
Proof.
  revert ys. induction xs as [|x xs IH]; intros ys; simpl.
  - split.
    + intros [= <-]. constructor.
    + intros H. by inversion H.
  - split.
    + destruct (f x) as [y|] eqn:Hx; simpl; [|done].
      destruct (omap f xs) as [ys'|] eqn:Hxs; simpl; [|done].
      intros [= <-]. constructor; [done|]. by apply IH.
    + intros H. inversion H as [|? y ? ys' Hx Hxs]; subst.
      rewrite Hx. simpl. apply IH in Hxs. by rewrite Hxs.
Qed.

Lemma join_lines_cons (l l' : string) (ls : list string) :
  join_lines (l :: l' :: ls) = (l ++ String LF (join_lines (l' :: ls)))%string.
Proof. reflexivity. Qed.

(** Joining undoes splitting. *)
Lemma join_split_lines (s : string) : join_lines (split_lines s) = s.
Proof.
  induction s as [|c s IH]; [done|].
  simpl. destruct (Ascii.eqb_spec c LF) as [->|Hc].
  - destruct (split_lines s) as [|l ls] eqn:Hs; [by destruct (split_lines_not_nil s)|].
    by rewrite join_lines_cons, IH.
  - destruct (split_lines s) as [|l ls] eqn:Hs; [by destruct (split_lines_not_nil s)|].
    destruct ls as [|l' ls].
    + simpl in *. by subst.
    + by rewrite <- IH.
Qed.

Lemma split_lines_one_line (s : string) : Forall one_line (split_lines s).
Proof.
  induction s as [|c s IH]; simpl; [constructor; [exact eq_refl|constructor]|].
  destruct (Ascii.eqb c LF) eqn:Hc; [constructor; [exact eq_refl|done]|].
  destruct (split_lines s) as [|l ls] eqn:Hs;
    [by destruct (split_lines_not_nil s)|].
  inversion IH as [|? ? Hl Hls]; subst. constructor; [|done].
  unfold one_line in *. simpl. by rewrite Hc, Hl.
Qed.

(** C5. Whatever [JSON.parse] is, a store text is the join of its lines
    [split_lines text], and of no other list of lines; the records loaded
    from it are the values parsed from the remainders of the lines that
    start with [E], one record for each such line and in the order of the
    lines.  On the four-line store of the examples the query
    [{age: {$gt: 21}}] resolves with the record of Ann, then that of Cy. *)
Theorem load_retains_E_lines_in_order (JSON_parse : string -> outcome value)
    (text : string) (rs : list value) :
  join_lines (split_lines text) = text /\
  Forall one_line (split_lines text) /\
  (forall ls, ls <> [] -> Forall one_line ls -> join_lines ls = text ->
              ls = split_lines text) /\
  (load JSON_parse text = Ok rs <->
   Forall2 (fun line r => JSON_parse (slice1 line) = Ok r)
           (List.filter first_is_E (split_lines text)) rs) /\
  example_store
    = join_lines [person_line "Ann" "30"; person_line "Bo" "20";
                  ignored_line; person_line "Cy" "25"] /\
  load JSON_text example_store = Ok [Ann; Bo; Cy] /\
  run example_db example_fs [QField "age" (Some (gt_rule 21))] None
    = Ok [Ann; Cy].
Proof.
  split; [apply join_split_lines|].
  split; [apply split_lines_one_line|].
  split; [intros ls Hne Hall <-; by rewrite split_join_lines|].
  split; [apply omap_Forall2|].
  repeat split.
Qed.

(* ===================================================================== *)
(** ** Objects: reading after writing *)
(* ===================================================================== *)

Lemma obj_lookup_update (o : object) (k k' : string) (v : value) :
  obj_lookup o k <> None ->
  obj_lookup (obj_update o k v) k'
  = if String.eqb k k' then Some v else obj_lookup o k'.
Proof.
  induction o as [|[k0 v0] o IH]; simpl; [done|].
  destruct (String.eqb_spec k0 k) as [->|Hk0]; simpl.
  - intros _. destruct (String.eqb k k'); done.
  - intros Hin. destruct (String.eqb_spec k0 k') as [->|Hk0'].
    + by destruct (String.eqb_spec k k') as [->|].
    + by apply IH.
Qed.

Lemma obj_lookup_insert_index (o : object) (i : Z) (k k' : string) (v : value) :
  obj_lookup o k = None ->
  obj_lookup (obj_insert_index i k v o) k'
  = if String.eqb k k' then Some v else obj_lookup o k'.
Proof.
  induction o as [|[k0 v0] o IH]; simpl; [done|].
  destruct (String.eqb_spec k0 k) as [->|Hk0]; [done|]. intros Hnone.
  destruct (array_index k0) as [j|]; [destruct (j <? i)|]; simpl; try done.
  destruct (String.eqb_spec k0 k') as [->|Hk0'].
  - by destruct (String.eqb_spec k k') as [->|].
  - by apply IH.
Qed.

Lemma obj_lookup_snoc (o : object) (k k' : string) (v : value) :
  obj_lookup o k = None ->
  obj_lookup (o ++ [(k, v)]) k'
  = if String.eqb k k' then Some v else obj_lookup o k'.
Proof.
  induction o as [|[k0 v0] o IH]; simpl; [done|].
  destruct (String.eqb_spec k0 k) as [->|Hk0]; [done|]. intros Hnone.
  destruct (String.eqb_spec k0 k') as [->|Hk0'].
  - by destruct (String.eqb_spec k k') as [->|].
  - by apply IH.
Qed.

(** Writing the own property [k], then reading [k'] *)
Lemma obj_lookup_define (o : object) (k k' : string) (v : value) :
  obj_lookup (obj_define o k v) k'
  = if String.eqb k k' then Some v else obj_lookup o k'.
Proof.
  unfold obj_define. destruct (obj_lookup o k) as [x|] eqn:Hk.
  - apply obj_lookup_update. by rewrite Hk.
  - destruct (array_index k).
    + by apply obj_lookup_insert_index.
    + by apply obj_lookup_snoc.
Qed.

(** [obj[k] = v] writes the own property, for every key but [__proto__]. *)
Lemma obj_set_own (o : object) (k : string) (v : value) :
  k <> proto_name -> obj_set o k v = Ok (obj_define o k v).
Proof.
  intros Hk. unfold obj_set.
  destruct (String.eqb_spec k proto_name) as [->|_]; [done|].
  by rewrite andb_false_r.
Qed.

(** [obj.__proto__ = v] on an object that does not own the key *)
Lemma obj_set_proto (o : object) (v : value) :
  obj_lookup o proto_name = None ->
  obj_set o proto_name v
  = if keeps_prototype v then Ok o else Throw OutsideModel.
Proof. intros Ho. unfold obj_set, has_own. by rewrite Ho, String.eqb_refl. Qed.

(** *** The order of the keys *)




(* ===================================================================== *)
(** ** Projection *)
(* ===================================================================== *)

(** What a read answers: the own value, [undefined] for a name nothing
    holds, the built-in for a name of [Object.prototype]; an own [__proto__]
    hides the accessor; null and undefined have no fields. *)
Example getProp_examples :
  getProp Ann "name" = Ok (VStr "Ann") /\
  getProp Ann "email" = Ok VUndefined /\
  getProp Ann "toString" = Ok (VNative "toString") /\
  getProp Ann "__proto__" = Ok (VNative "__proto__") /\
  getProp (VObj [("__proto__", VNum (Num 5))]) "__proto__" = Ok (VNum (Num 5)) /\
  getProp VNull "name" = Throw TypeError /\
  getProp VUndefined "name" = Throw TypeError /\
  getProp (VArr [VStr "a"]) "length" = Ok (VNum (Num 1)) /\
  getProp (VArr [VStr "a"]) "0" = Ok (VStr "a") /\
  getProp (VArr [VStr "a"]) "1" = Ok VUndefined /\
  getProp (VStr "ab") "1" = Ok (VStr "b").
Proof. repeat split; reflexivity. Qed.

(** What an assignment does: a new key goes behind the others, an array
    index before them; a key that exists keeps its place; [__proto__]
    creates no key. *)
Example obj_set_examples :
  obj_set [("b", VNull)] "a" (VNum (Num 1))
  = Ok [("b", VNull); ("a", VNum (Num 1))] /\
  obj_set [("b", VNull); ("a", VNull)] "b" (VNum (Num 1))
  = Ok [("b", VNum (Num 1)); ("a", VNull)] /\
  obj_set [("b", VNull)] "7" (VNum (Num 1))
  = Ok [("7", VNum (Num 1)); ("b", VNull)] /\
  obj_set [("b", VNull)] "toString" (VNative "toString")
  = Ok [("b", VNull); ("toString", VNative "toString")] /\
  obj_set [("b", VNull)] "__proto__" (VNum (Num 5)) = Ok [("b", VNull)] /\
  obj_set [("b", VNull)] "__proto__" (VNative "__proto__") = Ok [("b", VNull)] /\
  obj_set [("b", VNull)] "__proto__" VNull = Throw OutsideModel /\
  obj_set [("b", VNull)] "__proto__" Ann = Throw OutsideModel.
Proof. repeat split; reflexivity. Qed.

(** Reading a field of an object always answers. *)
Lemma getProp_object (o : object) (key : string) :
  getProp (VObj o) key = Ok (field (VObj o) key).
Proof. unfold field. simpl. by destruct (obj_lookup o key). Qed.

(** A plain object answers its own value, the built-in of [Object.prototype]
    for one of its names, and [undefined] otherwise. *)
Lemma field_object (o : object) (key : string) :
  field (VObj o) key
  = match obj_lookup o key with
    | Some v => v
    | None => if inherited key then VNative key else VUndefined
    end.
Proof. unfold field. simpl. by destruct (obj_lookup o key). Qed.

Lemma written_app (ks ks' : list string) :
  written (ks ++ ks') = written ks ++ written ks'.
Proof. apply List.filter_app. Qed.

Lemma written_In (fields : list string) (k : string) :
  In k (written fields) <-> In k fields /\ k <> proto_name.
Proof.
  unfold written. rewrite List.filter_In.
  by destruct (String.eqb_spec k proto_name) as [->|]; simpl; intuition.
Qed.


Lemma project_fold_throw (v : value) (fields : list string) (e : error) :
  fold_left (project_step v) fields (Throw e) = Throw e.
Proof. induction fields as [|k fields IH]; simpl; done. Qed.

(** The steps of the projection of one record: every listed field but
    [__proto__] is written as an own key; the assignment of [__proto__]
    changes nothing when the value it assigns keeps the prototype. *)
Lemma project_fold_build (v : value) (fields : list string) (acc : object) :
  obj_lookup acc proto_name = None ->
  Forall (fun k => getProp v k = Ok (field v k)) fields ->
  (In proto_name fields -> keeps_prototype (field v proto_name) = true) ->
  fold_left (project_step v) fields (Ok acc)
  = Ok (build (field v) (written fields) acc).
Proof.
  revert acc. induction fields as [|k fields IH]; intros acc Hacc Hall Hproto;
    [done|].
  inversion Hall as [|? ? Hk Hrest]; subst. simpl.
  rewrite Hk. simpl.
  destruct (String.eqb_spec k proto_name) as [->|Hne]; simpl.
  - rewrite obj_set_proto, Hproto by (done || by left).
    apply IH; [done|done|]. intros Hin. apply Hproto. by right.
  - rewrite obj_set_own by done. apply IH; [|done|].
    + rewrite obj_lookup_define. by destruct (String.eqb_spec k proto_name).
    + intros Hin. apply Hproto. by right.
Qed.

Lemma project_fold_ok (v : value) (fields : list string) (acc o : object) :
  obj_lookup acc proto_name = None ->
  fold_left (project_step v) fields (Ok acc) = Ok o ->
  Forall (fun k => getProp v k = Ok (field v k)) fields /\
  (In proto_name fields -> keeps_prototype (field v proto_name) = true).
Proof.
  revert acc. induction fields as [|k fields IH]; intros acc Hacc.
  { intros _. split; [by constructor|by intros []]. }
  simpl. destruct (getProp v k) as [x|e] eqn:Hk; simpl;
    [|by rewrite project_fold_throw].
  assert (Hx : field v k = x) by (by unfold field; rewrite Hk).
  destruct (String.eqb_spec k proto_name) as [->|Hne].
  - rewrite obj_set_proto by done.
    destruct (keeps_prototype x) eqn:Hkeeps; [|by rewrite project_fold_throw].
    intros [Hall Hproto]%IH; [|done].
    split; [constructor; [congruence|done]|].
    intros _. by rewrite Hx.
  - rewrite obj_set_own by done.
    intros [Hall Hproto]%IH.
    + split; [constructor; [congruence|done]|].
      intros [Heq|Hin]; [done|by apply Hproto].
    + rewrite obj_lookup_define. by destruct (String.eqb_spec k proto_name).
Qed.

Lemma build_snoc (g : string -> value) (fields : list string) (k : string)
    (acc : object) :
  build g (fields ++ [k]) acc = obj_define (build g fields acc) k (g k).
Proof. unfold build. by rewrite fold_left_app. Qed.

(** Every field written can be read back from the object built. *)
Lemma build_lookup (g : string -> value) (fields : list string) (acc : object)
    (k : string) :
  In k fields -> obj_lookup (build g fields acc) k = Some (g k).
Proof.
  induction fields as [|k0 fields IH] using rev_ind; [done|].
  intros Hin. rewrite build_snoc, obj_lookup_define.
  destruct (String.eqb_spec k0 k) as [->|Hne]; [done|].
  apply in_app_or in Hin as [Hin|[->|[]]]; [by apply IH|done].
Qed.

(** A key that is not written is as it was. *)
Lemma build_lookup_other (g : string -> value) (fields : list string)
    (acc : object) (k : string) :
  ~ In k fields -> obj_lookup (build g fields acc) k = obj_lookup acc k.
Proof.
  induction fields as [|k0 fields IH] using rev_ind; [done|].
  intros Hnot. rewrite build_snoc, obj_lookup_define.
  destruct (String.eqb_spec k0 k) as [->|Hne].
  - exfalso. apply Hnot, in_or_app. right. by left.
  - apply IH. intros Hin. apply Hnot, in_or_app. by left.
Qed.

Lemma build_ext (g g' : string -> value) (fields : list string) (acc : object) :
  (forall k, In k fields -> g k = g' k) ->
  build g fields acc = build g' fields acc.
Proof.
  revert acc. induction fields as [|k fields IH]; intros acc Hg; [done|].
  simpl. rewrite (Hg k) by (by left). apply IH. intros k' Hk'. apply Hg. by right.
Qed.


Lemma project_record_ok (fields : list string) (v : value) (r : value) :
  project_record fields v = Ok r ->
  r = VObj (build (field v) (written fields) []) /\
  Forall (fun k => getProp v k = Ok (field v k)) fields /\
  (In proto_name fields -> keeps_prototype (field v proto_name) = true).
Proof.
  unfold project_record.
  change (fun (acc : outcome object) (key : string) =>
            obj <-- acc ;; x <-- getProp v key ;; obj_set obj key x)
    with (project_step v).
  destruct (fold_left (project_step v) fields (Ok [])) as [o|e] eqn:Hfold;
    simpl; [|done].
  intros [= <-].
  destruct (project_fold_ok v fields [] o eq_refl Hfold) as [Hall Hproto].
  pose proof (project_fold_build v fields [] eq_refl Hall Hproto) as Hbuild.
  assert (Ho : Ok o = Ok (build (field v) (written fields) []))
    by (rewrite <- Hfold; exact Hbuild).
  by injection Ho as ->.
Qed.

Lemma project_record_build (fields : list string) (v : value) :
  Forall (fun k => getProp v k = Ok (field v k)) fields ->
  (In proto_name fields -> keeps_prototype (field v proto_name) = true) ->
  project_record fields v = Ok (VObj (build (field v) (written fields) [])).
Proof.
  intros Hall Hproto. unfold project_record.
  change (fun (acc : outcome object) (key : string) =>
            obj <-- acc ;; x <-- getProp v key ;; obj_set obj key x)
    with (project_step v).
  pose proof (project_fold_build v fields [] eq_refl Hall Hproto) as Hbuild.
  replace (fold_left (project_step v) fields (Ok []))
    with (Ok (build (field v) (written fields) []))
    by (symmetry; exact Hbuild).
  done.
Qed.

(** A field written by the projection holds in the projected record what it
    holds in the record. *)
Lemma projected_field (g : string -> value) (fields : list string) (k : string) :
  In k fields -> k <> proto_name ->
  field (VObj (build g (written fields) [])) k = g k.
Proof.
  intros Hin Hne. rewrite field_object, build_lookup; [done|].
  by apply written_In.
Qed.

(** The projected record does not own [__proto__]: reading it answers
    [Object.prototype]. *)
Lemma projected_proto (g : string -> value) (fields : list string) :
  field (VObj (build g (written fields) [])) proto_name = VNative proto_name.
Proof.
  rewrite field_object, build_lookup_other; [done|].
  intros [_ Hne]%written_In. done.
Qed.

(** Projecting a projected record gives it back. *)
Lemma project_record_idempotent (fields : list string) (v r : value) :
  project_record fields v = Ok r -> project_record fields r = Ok r.
Proof.
  intros (-> & Hall & Hproto)%project_record_ok.
  rewrite project_record_build.
  - do 2 f_equal. apply build_ext.
    intros k [Hk Hne]%written_In. by apply projected_field.
  - apply Forall_forall. intros k Hk. apply getProp_object.
  - intros _. by rewrite projected_proto.
Qed.

Lemma omap_project_idempotent (fields : list string) (xs ys : list value) :
  omap (project_record fields) xs = Ok ys ->
  omap (project_record fields) ys = Ok ys.
Proof.
  rewrite !omap_Forall2. intros H.
  induction H as [|x y xs ys Hxy Hrest IH]; constructor; [|done].
  by eapply project_record_idempotent.
Qed.

(** C9. Projection is idempotent.  On the contents of arrays, projecting the
    outcome of a projection with the same field list changes nothing (an
    exception of the first projection stays that exception); in the store,
    the array returned by the second projection holds the same partial
    records as the array returned by the first. *)
Theorem projection_idempotent (opt : ParamEndRule) (xs : list value)
    (st st1 : store) (arr r1 : loc) :
  (ys <-- omap (project_record (keys opt)) xs ;;
   omap (project_record (keys opt)) ys)
  = omap (project_record (keys opt)) xs /\
  (projection arr opt st = Ok (r1, st1) ->
   exists ys, st1 !! r1 = Some ys /\
              projection r1 opt st1 = Ok (length st1, st1 ++ [ys])).
Proof.
  split.
  - destruct (omap (project_record (keys opt)) xs) as [ys|e] eqn:Hxs; [|done].
    simpl. by eapply omap_project_idempotent.
  - unfold projection, new_array, mbind, read, lift, alloc.
    destruct (st !! arr) as [zs|]; [|done].
    destruct (omap (project_record (keys opt)) zs) as [ys|e] eqn:Hzs; [|done].
    intros [= <- <-]. exists ys. rewrite lookup_alloc. split; [done|].
    by rewrite (omap_project_idempotent _ _ _ Hzs).
Qed.

Lemma projection_idempotent_witness :
  projection 0%nat [("name", VNum (Num 1)); ("email", VNum (Num 1))] [[Ann; Bo]]
  = Ok (1%nat, [[Ann; Bo];
                [VObj [("name", VStr "Ann"); ("email", VUndefined)];
                 VObj [("name", VStr "Bo"); ("email", VUndefined)]]]) /\
  exists ys,
    [[Ann; Bo];
     [VObj [("name", VStr "Ann"); ("email", VUndefined)];
      VObj [("name", VStr "Bo"); ("email", VUndefined)]]] !! 1%nat = Some ys /\
    projection 1%nat [("name", VNum (Num 1)); ("email", VNum (Num 1))]
      [[Ann; Bo];
       [VObj [("name", VStr "Ann"); ("email", VUndefined)];
        VObj [("name", VStr "Bo"); ("email", VUndefined)]]]
    = Ok (2%nat, [[Ann; Bo];
                  [VObj [("name", VStr "Ann"); ("email", VUndefined)];
                   VObj [("name", VStr "Bo"); ("email", VUndefined)]]] ++ [ys]).
Proof.
  split; [reflexivity|].
  destruct (proj2 (projection_idempotent
                     [("name", VNum (Num 1)); ("email", VNum (Num 1))] []
                     [[Ann; Bo]] _ 0%nat 1%nat) eq_refl) as (ys & Hlookup & Hys).
  exists ys. split; [exact Hlookup | exact Hys].
Defined.




(* ===================================================================== *)
(** ** Full-text search *)
(* ===================================================================== *)

(** C1. On the store of the examples [{$text: "ann"}] resolves with the
    record of Ann alone and [{$text: "an"}] with no record.  But the pattern
    carries the [g] flag, so a successful [re.test] leaves [lastIndex] behind
    the match and the next test starts there: on a store with the records
    [{"name":"Ann"}] and [{"name":"Ann Lee"}], which both hold the whole word
    [ann] in a string field, [{$text: "ann"}] resolves with the first only. *)
Theorem text_search_misses_record_after_match :
  run example_db example_fs [QText (Some "ann")] None = Ok [Ann] /\
  run example_db example_fs [QText (Some "an")] None = Ok [] /\
  load JSON_text two_anns_store
    = Ok [VObj [("name", VStr "Ann")]; VObj [("name", VStr "Ann Lee")]] /\
  List.filter (spec_text_keeps "ann")
    [VObj [("name", VStr "Ann")]; VObj [("name", VStr "Ann Lee")]]
    = [VObj [("name", VStr "Ann")]; VObj [("name", VStr "Ann Lee")]] /\
  run example_db two_anns_fs [QText (Some "ann")] None
    = Ok [VObj [("name", VStr "Ann")]].
Proof. repeat split. Qed.

(* ===================================================================== *)
(** ** Which arrays the engine writes *)
(* ===================================================================== *)

Lemma new_array_inv (f : list value -> outcome (list value)) (arr r : loc)
    (st st' : store) :
  new_array f arr st = Ok (r, st') ->
  exists xs ys, st !! arr = Some xs /\ f xs = Ok ys /\
                r = length st /\ st' = st ++ [ys].
Proof.
  unfold new_array, mbind, read, lift, alloc.
  destruct (st !! arr) as [xs|] eqn:Harr; [|done].
  destruct (f xs) as [ys|] eqn:Hys; [|done].
  intros [= <- <-]. by exists xs, ys.
Qed.

Lemma new_array_returns_new (f : list value -> outcome (list value))
    (arr : loc) (st : store) :
  returns_new_array st (new_array f arr st).
Proof.
  intros r st' (xs & ys & _ & _ & -> & ->)%new_array_inv. eauto.
Qed.

Lemma sort_insert_perm (comparefn : value -> value -> outcome number)
    (x : value) (s s' : list value) :
  sort_insert comparefn x s = Ok s' -> s' ≡ₚ x :: s.
Proof.
  revert s'. induction s as [|y s IH]; intros s'; simpl.
  - by intros [= <-].
  - destruct (comparefn y x) as [c|]; simpl; [|done].
    destruct (num_gt c (Num 0)).
    + by intros [= <-].
    + destruct (sort_insert comparefn x s) as [r|]; simpl; [|done].
      intros [= <-]. rewrite (IH r eq_refl). apply perm_swap.
Qed.

Lemma sort_fold_throw (comparefn : value -> value -> outcome number)
    (xs : list value) (e : error) :
  fold_left (sort_step comparefn) xs (Throw e) = Throw e.
Proof. induction xs as [|x xs IH]; simpl; done. Qed.

Lemma sort_fold_perm (comparefn : value -> value -> outcome number)
    (xs acc ys : list value) :
  fold_left (sort_step comparefn) xs (Ok acc) = Ok ys -> ys ≡ₚ acc ++ xs.
Proof.
  revert acc. induction xs as [|x xs IH]; intros acc; simpl.
  - intros [= <-]. by rewrite app_nil_r.
  - destruct (sort_insert comparefn x acc) as [acc'|] eqn:Hins.
    + intros Hys%IH. rewrite Hys, (sort_insert_perm _ _ _ _ Hins).
      simpl. apply Permutation_middle.
    + by rewrite sort_fold_throw.
Qed.

(** Sorting keeps the elements. *)
Lemma sorted_list_perm (comparefn : value -> value -> outcome number)
    (xs ys : list value) :
  sorted_list comparefn xs = Ok ys -> ys ≡ₚ xs.
Proof. intros H. by apply sort_fold_perm in H. Qed.

Lemma Array_sort_inv (arr r : loc) (comparefn : value -> value -> outcome number)
    (st st' : store) :
  Array_sort arr comparefn st = Ok (r, st') ->
  r = arr /\
  exists xs ys, st !! arr = Some xs /\ sorted_list comparefn xs = Ok ys /\
                st' = <[arr := ys]> st.
Proof.
  unfold Array_sort, mbind, read, lift, write, mret.
  destruct (st !! arr) as [xs|] eqn:Harr; [|done].
  destruct (sorted_list comparefn xs) as [ys|] eqn:Hys; [|done].
  rewrite Harr. intros [= <- <-]. split; [done|]. by exists xs, ys.
Qed.

Lemma sort_passes_inv (arr r : loc) (opt : ParamEndRule) (ks : list string)
    (st st' : store) (xs : list value) :
  st !! arr = Some xs ->
  sort_passes arr opt ks st = Ok (r, st') ->
  r = arr /\ exists ys, ys ≡ₚ xs /\ st' = <[arr := ys]> st.
Proof.
  unfold sort_passes.
  revert st xs. induction ks as [|k ks IH]; intros st xs Harr; simpl.
  - unfold mret. intros [= <- <-]. split; [done|].
    exists xs. split; [done|]. symmetry. by apply list_insert_id.
  - unfold mbind at 1.
    destruct (Array_sort arr (compare_by opt k) st) as [[r1 st1]|] eqn:Hpass;
      [|done].
    apply Array_sort_inv in Hpass as (-> & xs' & ys & Hxs' & Hys & ->).
    rewrite Harr in Hxs'. injection Hxs' as <-.
    apply sorted_list_perm in Hys.
    assert (Hlt : (arr < length st)%nat) by (by eapply lookup_lt_Some).
    intros Hrest. eapply IH in Hrest as (-> & zs & Hzs & ->);
      [|by apply list_lookup_insert_eq].
    split; [done|]. exists zs. split; [by rewrite Hzs|].
    by rewrite list_insert_insert_eq.
Qed.

(** [sort] returns the array it was given, holding the same records in a
    possibly different order; no other array changes. *)
Lemma sort_inv (arr r : loc) (opt : ParamEndRule) (st st' : store)
    (xs : list value) :
  st !! arr = Some xs ->
  sort arr opt st = Ok (r, st') ->
  r = arr /\ exists ys, ys ≡ₚ xs /\ st' = <[arr := ys]> st.
Proof. apply sort_passes_inv. Qed.

Section WritesOfTheEngine.

Variable RegExp_new : string -> outcome matcher.

Lemma apply_entry_returns_new (result : loc) (entry : query_entry) (st : store) :
  returns_new_array st (apply_entry RegExp_new result entry st).
Proof. destruct entry; apply new_array_returns_new. Qed.

(** After the keys of the query the store is the one before the call plus
    the arrays of the filters, and the result is the array given when the
    query has no key, the last new array otherwise. *)
Lemma apply_entries_inv (query : Query) (a r : loc) (st st' : store) :
  mfold (apply_entry RegExp_new) a query st = Ok (r, st') ->
  exists ext, st' = st ++ ext /\
    (query = [] /\ r = a /\ ext = [] \/
     query <> [] /\ (length st <= r < length st')%nat).
Proof.
  revert a st. induction query as [|entry query IH]; intros a st; simpl.
  - unfold mret. intros [= <- <-]. exists []. rewrite app_nil_r. auto.
  - unfold mbind at 1.
    destruct (apply_entry RegExp_new a entry st) as [[a1 st1]|] eqn:Hentry;
      [|done].
    apply apply_entry_returns_new in Hentry as (-> & ys & ->).
    intros (ext & -> & Hr)%IH. exists (ys :: ext).
    split; [by rewrite <- app_assoc|]. right. split; [done|].
    rewrite !length_app in *. simpl in *.
    destruct Hr as [(_ & -> & ->)|(_ & Hr)]; simpl; lia.
Qed.

Lemma endHeadless_inv (arr r : loc) (options : EndRule) (st st' : store)
    (xs : list value) :
  st !! arr = Some xs ->
  endHeadless arr options st = Ok (r, st') ->
  exists ys ext,
    st' = <[arr := ys]> st ++ ext /\ ys ≡ₚ xs /\
    (end_sort options = None -> ys = xs) /\
    (end_projection options = None -> r = arr /\ ext = []) /\
    (end_projection options <> None -> r = length st).
Proof.
  intros Harr. unfold endHeadless, mbind.
  destruct (match end_sort options with
            | Some s => sort arr s
            | None => mret arr
            end st) as [[r1 st1]|] eqn:Hsort; [|done].
  assert (Hs : r1 = arr /\ exists ys, ys ≡ₚ xs /\ st1 = <[arr := ys]> st /\
                 (end_sort options = None -> ys = xs)).
  { destruct (end_sort options) as [s|].
    - eapply sort_inv in Hsort as (-> & ys & Hys & ->); [|done].
      split; [done|]. by exists ys.
    - injection Hsort as <- <-. split; [done|]. exists xs.
      split; [done|]. split; [|done]. symmetry. by apply list_insert_id. }
  destruct Hs as (-> & ys & Hys & -> & Hnosort).
  destruct (end_projection options) as [p|].
  - intros (-> & zs & ->)%new_array_returns_new.
    exists ys, [zs]. rewrite length_insert. repeat split; done.
  - unfold mret. intros [= <- <-]. exists ys, [].
    rewrite app_nil_r. repeat split; done.
Qed.

(** The steps of [find] after the load write to the loaded array only, and
    only to reorder it. *)
Lemma query_records_inv (sqlData r : loc) (query : Query)
    (options : option EndRule) (st st' : store) (xs : list value) :
  st !! sqlData = Some xs ->
  query_records RegExp_new sqlData query options st = Ok (r, st') ->
  exists ys ext,
    st' = <[sqlData := ys]> st ++ ext /\ ys ≡ₚ xs /\
    (query <> [] \/ (forall o, options = Some o -> end_sort o = None) ->
     ys = xs).
Proof.
  intros Hdata. unfold query_records, mbind.
  destruct (mfold (apply_entry RegExp_new) sqlData query st)
    as [[r1 st1]|] eqn:Hfold; [|done].
  apply apply_entries_inv in Hfold as (ext & -> & Hr).
  assert (Hid : <[sqlData := xs]> st = st) by (by apply list_insert_id).
  destruct Hr as [(-> & -> & ->)|(Hne & Hr)].
  - rewrite app_nil_r. destruct options as [o|].
    + intros (ys & ext & -> & Hys & Hnosort & _)%(endHeadless_inv _ _ _ _ _ xs);
        [|done].
      exists ys, ext. split; [done|]. split; [done|].
      intros [Hq|Ho]; [done|]. by apply Hnosort, Ho.
    + unfold mret. intros [= <- <-]. exists xs, [].
      by rewrite Hid, app_nil_r.
  - destruct options as [o|].
    + destruct (lookup_lt_is_Some_2 (st ++ ext) r1 (proj2 Hr)) as [zs Hzs].
      intros (ys & ext' & -> & _)%(endHeadless_inv _ _ _ _ _ zs); [|done].
      exists xs, (<[(r1 - length st)%nat := ys]> ext ++ ext').
      rewrite Hid, app_assoc. split; [|done].
      f_equal. apply insert_app_r_alt. lia.
    + unfold mret. intros [= <- <-]. exists xs, ext. by rewrite Hid.
Qed.

End WritesOfTheEngine.

(** C2, as stated, fails: [sort] reorders the array it is given and returns
    that very array.  Sorting the array at location 0, which holds the
    records of Ann, Bo and Cy, by ascending age leaves Bo, Cy, Ann at
    location 0, and the result is location 0. *)
Lemma sort_reorders_the_array_it_is_given :
  [[Ann; Bo; Cy]] !! 0%nat = Some [Ann; Bo; Cy] /\
  sort 0%nat [("age", VNum (Num 1))] [[Ann; Bo; Cy]]
    = Ok (0%nat, [[Bo; Cy; Ann]]) /\
  [[Bo; Cy; Ann]] !! 0%nat <> Some [Ann; Bo; Cy].
Proof. repeat split. discriminate. Qed.

(** C2, amended.  Records are values the engine never writes to.  Every
    filter of a query ([$and], [$or], [$text], a field rule) and [projection]
    return a new array and leave every existing array as it was.  [sort]
    does not: it returns the array it was given, which then holds the same
    records in the sorted order, and changes no other array.  Hence the steps
    of [find] after the load change no array but the loaded one, which keeps
    its records and is reordered at most, and only when the query has no key
    and the end rule sorts. *)
Theorem engine_writes_only_by_sorting_in_place
    (RegExp_new : string -> outcome matcher) (st : store) :
  (forall arr opts, returns_new_array st (op_and arr opts st)) /\
  (forall arr opts, returns_new_array st (op_or arr opts st)) /\
  (forall result entry,
     returns_new_array st (apply_entry RegExp_new result entry st)) /\
  (forall arr opt, returns_new_array st (projection arr opt st)) /\
  (forall arr opt xs r st',
     st !! arr = Some xs -> sort arr opt st = Ok (r, st') ->
     r = arr /\ exists ys, ys ≡ₚ xs /\ st' = <[arr := ys]> st) /\
  (forall sqlData query options xs r st',
     st !! sqlData = Some xs ->
     query_records RegExp_new sqlData query options st = Ok (r, st') ->
     exists ys ext,
       st' = <[sqlData := ys]> st ++ ext /\ ys ≡ₚ xs /\
       (query <> [] \/ (forall o, options = Some o -> end_sort o = None) ->
        ys = xs)).
Proof.
  split; [intros; apply new_array_returns_new|].
  split; [intros; apply new_array_returns_new|].
  split; [intros; apply apply_entry_returns_new|].
  split; [intros; apply new_array_returns_new|].
  split; [intros arr opt xs r st'; apply sort_inv|].
  intros sqlData query options xs r st'. apply query_records_inv.
Qed.

Lemma engine_writes_only_by_sorting_in_place_witness :
  exists ys, ys ≡ₚ [Ann; Bo; Cy] /\
             [[Bo; Cy; Ann]] = <[0%nat := ys]> [[Ann; Bo; Cy]].
Proof.
  destruct (engine_writes_only_by_sorting_in_place RegExp_word [[Ann; Bo; Cy]])
    as (_ & _ & _ & _ & Hsort & _).
  destruct (Hsort 0%nat [("age", VNum (Num 1))] [Ann; Bo; Cy] 0%nat
              [[Bo; Cy; Ann]] eq_refl eq_refl) as (_ & ys & Hys & Hst).
  exists ys. split; [exact Hys | exact Hst].
Defined.

(* ===================================================================== *)
(** ** Sorting by several fields *)
(* ===================================================================== *)

Lemma mfold_app {A B} (body : A -> B -> M A) (acc : A) (xs ys : list B)
    (st : store) :
  mfold body acc (xs ++ ys) st
  = mbind (mfold body acc xs) (fun acc' => mfold body acc' ys) st.
Proof.
  revert acc st. induction xs as [|x xs IH]; intros acc st; simpl; [done|].
  unfold mbind in *. destruct (body acc x st) as [[acc' st']|]; [|done].
  apply IH.
Qed.

Lemma compare_by_numeric (opt : ParamEndRule) (k : string) (d : Z)
    (a b : value) :
  obj_lookup opt k = Some (VNum (Num d)) -> numeric k a -> numeric k b ->
  compare_by opt k a b = Ok (Num (d * (num_field k a - num_field k b))).
Proof.
  intros Hd [x Ha] [y Hb]. unfold compare_by, num_field.
  rewrite Ha, Hb. simpl. by rewrite Hd.
Qed.

Lemma with_key_none (d : Z) (k : string) (x : value) (s : list value) :
  Forall (fun y => d * num_field k x < d * num_field k y) s ->
  with_key k (num_field k x) s = [].
Proof.
  induction 1 as [|y s Hy _ IH]; [done|].
  unfold with_key in *. simpl. rewrite IH.
  destruct (Z.eqb_spec (num_field k y) (num_field k x)) as [Heq|]; [|done].
  rewrite Heq in Hy. lia.
Qed.

Lemma with_key_app (k : string) (z : Z) (xs ys : list value) :
  with_key k z (xs ++ ys) = with_key k z xs ++ with_key k z ys.
Proof. unfold with_key. apply List.filter_app. Qed.

Section OnePass.

Variables (opt : ParamEndRule) (k : string) (d : Z).
Hypothesis direction : obj_lookup opt k = Some (VNum (Num d)).

(** Inserting into a sorted list keeps it sorted, and puts the record
    behind those with the same key. *)
Lemma sort_insert_numeric (x : value) (s : list value) :
  numeric k x -> Forall (numeric k) s -> StronglySorted (in_order d k) s ->
  exists s', sort_insert (compare_by opt k) x s = Ok s' /\
             StronglySorted (in_order d k) s' /\
             forall z, with_key k z s' = with_key k z (s ++ [x]).
Proof using direction.
  intros Hx Hs Hsorted. induction s as [|y s IH]; cbn [sort_insert].
  - exists [x]. split; [done|]. split; [|done].
    by repeat constructor.
  - inversion Hs as [|? ? Hy Hs']; subst.
    apply StronglySorted_inv in Hsorted as [Hsorted Hy_le].
    rewrite (compare_by_numeric opt k d y x direction Hy Hx).
    cbn [obind num_gt].
    destruct (Z.ltb_spec 0 (d * (num_field k y - num_field k x))) as [Hgt|Hle].
    + exists (x :: y :: s). split; [done|].
      assert (Hafter : Forall (fun y0 => d * num_field k x < d * num_field k y0)
                         (y :: s)).
      { constructor; [lia|]. eapply Forall_impl; [exact Hy_le|].
        unfold in_order. simpl. intros. lia. }
      split.
      * constructor; [by constructor|].
        eapply Forall_impl; [exact Hafter|]. unfold in_order. simpl. intros. lia.
      * intros z. rewrite with_key_app.
        change (with_key k z (x :: y :: s))
          with (with_key k z ([x] ++ (y :: s))).
        rewrite with_key_app.
        destruct (Z.eq_dec (num_field k x) z) as [<-|Hne].
        -- rewrite (with_key_none d k x (y :: s) Hafter).
           by rewrite app_nil_r.
        -- assert (Hx_out : with_key k z [x] = []).
           { unfold with_key. simpl.
             by destruct (Z.eqb_spec (num_field k x) z). }
           by rewrite Hx_out, app_nil_r.
    + destruct (IH Hs' Hsorted) as (s' & Hins & Hs'_sorted & Hkeys).
      rewrite Hins. cbn [obind]. exists (y :: s'). split; [done|]. split.
      * constructor; [done|].
        apply (Permutation_Forall (Permutation_sym (sort_insert_perm _ _ _ _ Hins))).
        constructor; [unfold in_order; lia|done].
      * intros z. unfold with_key in *. simpl. by rewrite Hkeys.
Qed.

(** One pass over numeric keys: the outcome is sorted by the key, and
    records with equal keys keep their order. *)
Lemma sort_fold_numeric (xs acc : list value) :
  Forall (numeric k) xs -> Forall (numeric k) acc ->
  StronglySorted (in_order d k) acc ->
  exists ys, fold_left (sort_step (compare_by opt k)) xs (Ok acc) = Ok ys /\
             StronglySorted (in_order d k) ys /\
             forall z, with_key k z ys = with_key k z (acc ++ xs).
Proof using direction.
  revert acc. induction xs as [|x xs IH]; intros acc Hxs Hacc Hsorted; simpl.
  - exists acc. by rewrite app_nil_r.
  - inversion Hxs as [|? ? Hx Hxs']; subst.
    destruct (sort_insert_numeric x acc Hx Hacc Hsorted)
      as (acc' & Hins & Hsorted' & Hkeys).
    rewrite Hins.
    destruct (IH acc' Hxs') as (ys & Hys & Hys_sorted & Hys_keys);
      [|done|].
    { apply (Permutation_Forall (Permutation_sym (sort_insert_perm _ _ _ _ Hins))).
      by constructor. }
    exists ys. split; [done|]. split; [done|].
    intros z. rewrite Hys_keys, !with_key_app, Hkeys, with_key_app.
    rewrite <- app_assoc. f_equal.
    change (x :: xs) with ([x] ++ xs). by rewrite with_key_app.
Qed.

Lemma sorted_list_numeric (xs : list value) :
  Forall (numeric k) xs ->
  exists ys, sorted_list (compare_by opt k) xs = Ok ys /\
             StronglySorted (in_order d k) ys /\
             forall z, with_key k z ys = with_key k z xs.
Proof using direction.
  intros Hxs. apply (sort_fold_numeric xs []); [done|constructor|constructor].
Qed.

End OnePass.

Lemma StronglySorted_weaken {A} (R R' : A -> A -> Prop) (l : list A) :
  (forall a b, R a b -> R' a b) -> StronglySorted R l -> StronglySorted R' l.
Proof.
  intros HR. induction 1 as [|a l Hl IH Ha]; constructor; [done|].
  eapply Forall_impl; [exact Ha|]. simpl. auto.
Qed.

(** C3, as stated, fails: the order is not decided by the last-listed field
    alone.  Ann (age 30) and Bo (age 20) have the same team.  Sorting Ann, Bo
    by [{team: 1}] leaves Ann, Bo; sorting the same array by
    [{age: 1, team: 1}] gives Bo, Ann: where the last field ties, the earlier
    pass decides. *)
Lemma sort_order_depends_on_earlier_fields :
  sort 0%nat [("team", VNum (Num 1))] [[Ann_team; Bo_team]]
    = Ok (0%nat, [[Ann_team; Bo_team]]) /\
  sort 0%nat [("age", VNum (Num 1)); ("team", VNum (Num 1))]
       [[Ann_team; Bo_team]]
    = Ok (0%nat, [[Bo_team; Ann_team]]).
Proof. split; reflexivity. Qed.

(** *** One pass by a key

    A pass whose comparator is the difference of a key, times the direction
    [d], on the records that satisfy [P]. *)

Section KeyedPass.

Variables (comparefn : value -> value -> outcome number).
Variables (key : value -> Z) (d : Z) (P : value -> Prop).
Hypothesis compares :
  forall y x, P y -> P x -> comparefn y x = Ok (Num (d * (key y - key x))).

Lemma keyed_none (x : value) (s : list value) :
  Forall (fun y => d * key x < d * key y) s ->
  List.filter (fun y => key y =? key x) s = [].
Proof.
  induction 1 as [|y s Hy _ IH]; [done|]. simpl. rewrite IH.
  destruct (Z.eqb_spec (key y) (key x)) as [Heq|]; [|done].
  rewrite Heq in Hy. lia.
Qed.

(** Inserting into a sorted list keeps it sorted, and puts the record
    behind those with the same key. *)
Lemma sort_insert_keyed (x : value) (s : list value) :
  P x -> Forall P s -> StronglySorted (fun a b => d * key a <= d * key b) s ->
  exists s', sort_insert comparefn x s = Ok s' /\
             StronglySorted (fun a b => d * key a <= d * key b) s' /\
             forall z, List.filter (fun y => key y =? z) s'
                       = List.filter (fun y => key y =? z) (s ++ [x]).
Proof using compares.
  intros Hx Hs Hsorted. induction s as [|y s IH]; cbn [sort_insert].
  - exists [x]. split; [done|]. split; [|done].
    by repeat constructor.
  - inversion Hs as [|? ? Hy Hs']; subst.
    apply StronglySorted_inv in Hsorted as [Hsorted Hy_le].
    rewrite (compares y x Hy Hx). cbn [obind num_gt].
    destruct (Z.ltb_spec 0 (d * (key y - key x))) as [Hgt|Hle].
    + exists (x :: y :: s). split; [done|].
      assert (Hafter : Forall (fun y0 => d * key x < d * key y0) (y :: s)).
      { constructor; [lia|]. eapply Forall_impl; [exact Hy_le|].
        simpl. intros. lia. }
      split.
      * constructor; [by constructor|].
        eapply Forall_impl; [exact Hafter|]. simpl. intros. lia.
      * intros z. rewrite List.filter_app.
        change (x :: y :: s) with ([x] ++ (y :: s)).
        rewrite List.filter_app.
        destruct (Z.eq_dec (key x) z) as [<-|Hne].
        -- rewrite (keyed_none x (y :: s) Hafter). by rewrite app_nil_r.
        -- assert (Hx_out : List.filter (fun y0 => key y0 =? z) [x] = []).
           { simpl. by destruct (Z.eqb_spec (key x) z). }
           by rewrite Hx_out, app_nil_r.
    + destruct (IH Hs' Hsorted) as (s' & Hins & Hs'_sorted & Hkeys).
      rewrite Hins. cbn [obind]. exists (y :: s'). split; [done|]. split.
      * constructor; [done|].
        apply (Permutation_Forall (Permutation_sym (sort_insert_perm _ _ _ _ Hins))).
        constructor; [lia|done].
      * intros z. simpl. by rewrite Hkeys.
Qed.

Lemma sort_fold_keyed (xs acc : list value) :
  Forall P xs -> Forall P acc ->
  StronglySorted (fun a b => d * key a <= d * key b) acc ->
  exists ys, fold_left (sort_step comparefn) xs (Ok acc) = Ok ys /\
             StronglySorted (fun a b => d * key a <= d * key b) ys /\
             forall z, List.filter (fun y => key y =? z) ys
                       = List.filter (fun y => key y =? z) (acc ++ xs).
Proof using compares.
  revert acc. induction xs as [|x xs IH]; intros acc Hxs Hacc Hsorted; simpl.
  - exists acc. by rewrite app_nil_r.
  - inversion Hxs as [|? ? Hx Hxs']; subst.
    destruct (sort_insert_keyed x acc Hx Hacc Hsorted)
      as (acc' & Hins & Hsorted' & Hkeys).
    rewrite Hins.
    destruct (IH acc' Hxs') as (ys & Hys & Hys_sorted & Hys_keys);
      [|done|].
    { apply (Permutation_Forall (Permutation_sym (sort_insert_perm _ _ _ _ Hins))).
      by constructor. }
    exists ys. split; [done|]. split; [done|].
    intros z. rewrite Hys_keys, !List.filter_app, Hkeys, List.filter_app.
    rewrite <- app_assoc. f_equal.
    change (x :: xs) with ([x] ++ xs). by rewrite List.filter_app.
Qed.

(** One pass: the outcome is sorted by the key, and records with equal keys
    keep their order. *)
Lemma sorted_list_keyed (xs : list value) :
  Forall P xs ->
  exists ys, sorted_list comparefn xs = Ok ys /\
             StronglySorted (fun a b => d * key a <= d * key b) ys /\
             forall z, List.filter (fun y => key y =? z) ys
                       = List.filter (fun y => key y =? z) xs.
Proof using compares.
  intros Hxs. apply (sort_fold_keyed xs []); [done|constructor|constructor].
Qed.

End KeyedPass.

(** The comparator of [sort] on records whose field coerces to a number. *)
Lemma compare_by_coerced (opt : ParamEndRule) (k : string) (d : Z)
    (a b : value) :
  coerced k (VObj opt) = Ok (Num d) -> has_sort_key k a -> has_sort_key k b ->
  compare_by opt k a b = Ok (Num (d * (sort_key k a - sort_key k b))).
Proof.
  intros Hd [x Ha] [y Hb]. unfold compare_by, sort_key. rewrite Ha, Hb.
  unfold coerced in *.
  destruct (getProp a k) as [av|]; [|done]. cbn [obind] in *. rewrite Ha.
  destruct (getProp b k) as [bv|]; [|done]. cbn [obind] in *. rewrite Hb.
  destruct (getProp (VObj opt) k) as [dv|]; [|done]. cbn [obind] in *.
  by rewrite Hd.
Qed.

(** What [Number] makes of the values a field can hold. *)
Example ToNumber_examples :
  ToNumber (VNum (Num 30)) = Ok (Num 30) /\
  ToNumber (VStr "30") = Ok (Num 30) /\
  ToNumber (VStr " -7 ") = Ok (Num (-7)) /\
  ToNumber (VStr EmptyString) = Ok (Num 0) /\
  ToNumber (VStr "old") = Ok NaN /\
  ToNumber (VBool true) = Ok (Num 1) /\
  ToNumber VNull = Ok (Num 0) /\
  ToNumber VUndefined = Ok NaN /\
  ToNumber (VArr []) = Ok (Num 0) /\
  ToNumber (VArr [VStr "30"]) = Ok (Num 30) /\
  ToNumber (VArr [VStr "a"; VNull]) = Ok NaN /\
  ToNumber (VObj [("age", VNum (Num 30))]) = Ok NaN /\
  ToNumber (VObj [("toString", VNum (Num 1))]) = Throw TypeError /\
  ToNumber (VArr [VObj [("toString", VNum (Num 1))]]) = Throw TypeError.
Proof. repeat split; reflexivity. Qed.

(** C3, amended.  [sort] makes one stable pass per listed field, each on the
    order the previous pass left, and compares two records by the numeric
    coercion of the field, [Number(a[k])], times the coercion of the
    direction.  When the last-listed field [k] coerces to a number in every
    record (a number, a numeric string, a boolean, null, ...) and its
    direction to the number [d], the final order is the outcome [zs] of the
    pass by [k] on the outcome [ys] of the earlier passes: [zs] is ordered by
    the coerced [k] (ascending for [d = 1], descending for [d = -1]), and the
    records that coerce to the same number stand in [zs] in the order they
    had in [ys], the one the earlier fields gave them. *)
Theorem sort_orders_by_last_field_then_earlier_passes
    (opt : ParamEndRule) (ks : list string) (k : string) (d : Z)
    (st st' : store) (arr r : loc) (xs : list value) :
  keys opt = ks ++ [k] ->
  coerced k (VObj opt) = Ok (Num d) ->
  st !! arr = Some xs ->
  Forall (has_sort_key k) xs ->
  sort arr opt st = Ok (r, st') ->
  exists ys zs,
    sort_passes arr opt ks st = Ok (arr, <[arr := ys]> st) /\
    sorted_list (compare_by opt k) ys = Ok zs /\
    r = arr /\ st' = <[arr := zs]> st /\
    StronglySorted (key_order d k) zs /\
    (d = 1 -> StronglySorted (fun a b => sort_key k a <= sort_key k b) zs) /\
    (d = -1 -> StronglySorted (fun a b => sort_key k b <= sort_key k a) zs) /\
    (forall z, with_sort_key k z zs = with_sort_key k z ys).
Proof.
  intros Hkeys Hd Harr Hnum. unfold sort. rewrite Hkeys, mfold_app.
  fold (sort_passes arr opt ks). unfold mbind at 1.
  destruct (sort_passes arr opt ks st) as [[r1 st1]|] eqn:Hearlier; [|done].
  destruct (sort_passes_inv _ _ _ _ _ _ _ Harr Hearlier) as (-> & ys & Hys & ->).
  simpl. unfold mbind at 1.
  destruct (Array_sort arr (compare_by opt k) (<[arr := ys]> st))
    as [[r2 st2]|] eqn:Hlast; [|done].
  apply Array_sort_inv in Hlast as (-> & ys' & zs & Hys' & Hzs & ->).
  assert (Hlt : (arr < length st)%nat) by (by eapply lookup_lt_Some).
  rewrite list_lookup_insert_eq in Hys' by done. injection Hys' as <-.
  unfold mret. intros [= <- <-].
  assert (Hnum' : Forall (has_sort_key k) ys)
    by (by apply (Permutation_Forall (Permutation_sym Hys))).
  destruct (sorted_list_keyed (compare_by opt k) (sort_key k) d (has_sort_key k)
              (fun y x => compare_by_coerced opt k d y x Hd) ys Hnum')
    as (zs' & Hzs' & Hsorted & Hstable).
  rewrite Hzs in Hzs'. injection Hzs' as <-.
  exists ys, zs. rewrite list_insert_insert_eq.
  repeat split; try done.
  - intros ->. eapply StronglySorted_weaken; [|exact Hsorted].
    simpl. intros. lia.
  - intros ->. eapply StronglySorted_weaken; [|exact Hsorted].
    simpl. intros. lia.
Qed.

Lemma sort_orders_by_last_field_then_earlier_passes_witness :
  sort 0%nat [("team", VNum (Num 1)); ("age", VStr "1")]
    [[Ann_text_age; Bo_team; Cy_text_age]]
  = Ok (0%nat, [[Bo_team; Cy_text_age; Ann_text_age]]) /\
  exists ys zs,
    sort_passes 0%nat [("team", VNum (Num 1)); ("age", VStr "1")] ["team"]
      [[Ann_text_age; Bo_team; Cy_text_age]]
    = Ok (0%nat, <[0%nat := ys]> [[Ann_text_age; Bo_team; Cy_text_age]]) /\
    [[Bo_team; Cy_text_age; Ann_text_age]]
    = <[0%nat := zs]> [[Ann_text_age; Bo_team; Cy_text_age]] /\
    StronglySorted (fun a b => sort_key "age" a <= sort_key "age" b) zs /\
    (forall z, with_sort_key "age" z zs = with_sort_key "age" z ys).
Proof.
  split; [reflexivity|].
  destruct (sort_orders_by_last_field_then_earlier_passes
              [("team", VNum (Num 1)); ("age", VStr "1")] ["team"] "age" 1
              [[Ann_text_age; Bo_team; Cy_text_age]]
              [[Bo_team; Cy_text_age; Ann_text_age]] 0%nat 0%nat
              [Ann_text_age; Bo_team; Cy_text_age] eq_refl eq_refl eq_refl)
    as (ys & zs & Hys & _ & _ & Hst & _ & Hup & _ & Hstable).
  - repeat constructor; eexists; reflexivity.
  - reflexivity.
  - exists ys, zs. split; [exact Hys|]. split; [exact Hst|].
    split; [exact (Hup eq_refl) | exact Hstable].
Defined.

(* ===================================================================== *)
(** ** The steps of a call *)
(* ===================================================================== *)


Section Failures.

Variable JSON_parse : string -> outcome value.
Variable RegExp_new : string -> outcome matcher.

(** Once the store is read and its lines are parsed, [find] is the
    evaluation of the query on the records. *)
Lemma find_result_loaded (db : Database) (fs : filesystem) (query : Query)
    (options : option EndRule) (str : string) (records : list value) :
  readFile fs (filename db) = Ok str ->
  load JSON_parse str = Ok records ->
  find_result JSON_parse RegExp_new db fs query options
  = evaluate RegExp_new records query options.
Proof.
  intros Hread Hload. unfold find_result, find, evaluate, mbind, lift, alloc.
  by rewrite Hread, Hload.
Qed.

Lemma find_result_read_error (db : Database) (fs : filesystem) (query : Query)
    (options : option EndRule) (e : error) :
  readFile fs (filename db) = Throw e ->
  find_result JSON_parse RegExp_new db fs query options = Throw e.
Proof.
  intros Hread. unfold find_result, find, mbind, lift. by rewrite Hread.
Qed.

Lemma find_result_parse_error (db : Database) (fs : filesystem) (query : Query)
    (options : option EndRule) (str : string) (e : error) :
  readFile fs (filename db) = Ok str ->
  load JSON_parse str = Throw e ->
  find_result JSON_parse RegExp_new db fs query options = Throw e.
Proof.
  intros Hread Hload. unfold find_result, find, mbind, lift.
  by rewrite Hread, Hload.
Qed.

End Failures.

(* ===================================================================== *)
(** ** The call as a function of the records *)
(* ===================================================================== *)

Lemma new_array_yields (f : list value -> outcome (list value)) (arr : loc)
    (st : store) (xs : list value) :
  st !! arr = Some xs -> yields (new_array f arr st) (f xs).
Proof.
  intros Harr. unfold new_array, mbind, read, lift, alloc. rewrite Harr.
  destruct (f xs) as [ys|e]; simpl; [|done].
  eexists _, _. split; [done|]. apply lookup_alloc.
Qed.

Lemma yields_bind (c : outcome (loc * store)) (k : loc -> M loc)
    (res : outcome (list value)) (g : list value -> outcome (list value)) :
  yields c res ->
  (forall r st' ys, st' !! r = Some ys -> yields (k r st') (g ys)) ->
  yields (match c with Ok (r, st') => k r st' | Throw e => Throw e end)
         (obind res g).
Proof.
  destruct res as [ys|e]; simpl.
  - intros (r & st' & -> & Hr) Hk. by apply Hk.
  - by intros -> _.
Qed.

Lemma Array_sort_contents (arr : loc)
    (comparefn : value -> value -> outcome number) (st : store)
    (xs : list value) :
  st !! arr = Some xs ->
  Array_sort arr comparefn st
  = match sorted_list comparefn xs with
    | Ok ys => Ok (arr, <[arr := ys]> st)
    | Throw e => Throw e
    end.
Proof.
  intros Harr. unfold Array_sort, mbind, read, lift, write, mret. rewrite Harr.
  destruct (sorted_list comparefn xs); [by rewrite Harr|done].
Qed.

Lemma sort_passes_contents (arr : loc) (opt : ParamEndRule) (ks : list string)
    (st : store) (xs : list value) :
  st !! arr = Some xs ->
  sort_passes arr opt ks st
  = match sorted_by opt ks xs with
    | Ok ys => Ok (arr, <[arr := ys]> st)
    | Throw e => Throw e
    end.
Proof.
  unfold sort_passes. revert st xs.
  induction ks as [|k ks IH]; intros st xs Harr; simpl.
  - unfold mret. by rewrite list_insert_id.
  - unfold mbind. rewrite (Array_sort_contents _ _ _ _ Harr).
    destruct (sorted_list (compare_by opt k) xs) as [ys|e]; cbn [obind]; [|done].
    assert (Hlt : (arr < length st)%nat) by (by eapply lookup_lt_Some).
    rewrite (IH (<[arr := ys]> st) ys (list_lookup_insert_eq _ _ _ Hlt)).
    destruct (sorted_by opt ks ys) as [zs|e]; [|done].
    by rewrite list_insert_insert_eq.
Qed.

Section Pipeline.

Variable JSON_parse : string -> outcome value.
Variable RegExp_new : string -> outcome matcher.

Lemma apply_entry_yields (entry : query_entry) (a : loc) (st : store)
    (xs : list value) :
  st !! a = Some xs ->
  yields (apply_entry RegExp_new a entry st) (entry_records RegExp_new entry xs).
Proof. intros Ha. destruct entry; by apply new_array_yields. Qed.

Lemma narrow_yields (query : Query) (a : loc) (st : store) (xs : list value) :
  st !! a = Some xs ->
  yields (mfold (apply_entry RegExp_new) a query st) (narrow RegExp_new query xs).
Proof.
  revert a st xs. induction query as [|entry query IH]; intros a st xs Ha; simpl.
  - unfold mret. by eexists _, _.
  - unfold mbind. apply yields_bind; [by apply apply_entry_yields|].
    intros r st' ys Hr. by apply IH.
Qed.

Lemma shape_yields (options : option EndRule) (a : loc) (st : store)
    (xs : list value) :
  st !! a = Some xs ->
  yields ((match options with
           | Some o => endHeadless a o
           | None => mret a
           end) st) (shape options xs).
Proof.
  intros Ha. destruct options as [o|]; simpl; [|by eexists _, _].
  unfold endHeadless, mbind.
  apply (yields_bind _ (fun result => match end_projection o with
                                      | Some p => projection result p
                                      | None => mret result
                                      end)).
  - destruct (end_sort o) as [s|]; [|by eexists _, _].
    change (sort a s st) with (sort_passes a s (keys s) st).
    rewrite (sort_passes_contents a s (keys s) st xs Ha).
    destruct (sorted_by s (keys s) xs) as [ys|e]; simpl; [|done].
    eexists _, _. split; [done|].
    apply list_lookup_insert_eq. by eapply lookup_lt_Some.
  - intros r st' ys Hr. destruct (end_projection o) as [p|].
    + by apply new_array_yields.
    + by eexists _, _.
Qed.

(** The steps of [find] after the load compute, on the records of the loaded
    array, the keys of the query and then the end rule. *)
Lemma evaluate_pipeline (records : list value) (query : Query)
    (options : option EndRule) :
  evaluate RegExp_new records query options
  = (ys <-- narrow RegExp_new query records ;; shape options ys).
Proof.
  unfold evaluate, mbind at 1.
  assert (H : yields (query_records RegExp_new 0%nat query options [records])
                (ys <-- narrow RegExp_new query records ;; shape options ys)).
  { unfold query_records, mbind.
    apply (yields_bind _ (fun result => match options with
                                        | Some o => endHeadless result o
                                        | None => mret result
                                        end)).
    - by apply narrow_yields.
    - intros r st' ys Hr. by apply shape_yields. }
  destruct (ys <-- narrow RegExp_new query records ;; shape options ys)
    as [zs|e]; simpl in H.
  - destruct H as (r & st' & -> & Hr). unfold read. by rewrite Hr.
  - by rewrite H.
Qed.

End Pipeline.

(** X3. [find] resolves or rejects as a function of the text of the store:
    read, load, the keys of the query one after the other on the records kept
    so far, then the sort, then the projection.  That [sort] writes into the
    array it is given shows nowhere in the outcome of a call. *)
Theorem find_is_the_pipeline_on_the_records
    (JSON_parse : string -> outcome value)
    (RegExp_new : string -> outcome matcher)
    (db : Database) (fs : filesystem) (query : Query)
    (options : option EndRule) :
  find_result JSON_parse RegExp_new db fs query options
  = (str <-- readFile fs (filename db) ;;
     records <-- load JSON_parse str ;;
     kept <-- narrow RegExp_new query records ;;
     shape options kept).
Proof.
  destruct (readFile fs (filename db)) as [str|e] eqn:Hread; simpl.
  - destruct (load JSON_parse str) as [records|e] eqn:Hload; simpl.
    + rewrite (find_result_loaded JSON_parse RegExp_new db fs query options
                 str records Hread Hload).
      apply evaluate_pipeline.
    + by eapply find_result_parse_error.
  - by apply find_result_read_error.
Qed.

Lemma narrow_app (RegExp_new : string -> outcome matcher) (q1 q2 : Query)
    (xs : list value) :
  narrow RegExp_new (q1 ++ q2) xs
  = (ys <-- narrow RegExp_new q1 xs ;; narrow RegExp_new q2 ys).
Proof.
  revert xs. induction q1 as [|entry q1 IH]; intros xs; simpl; [done|].
  destruct (entry_records RegExp_new entry xs) as [ys|e]; simpl; [|done].
  apply IH.
Qed.

(** X4. The keys of a query narrow the records one after the other: a query
    whose keys are those of [q1] followed by those of [q2] resolves as [q2]
    (with the end rule) does on the records [q1] resolves with, and is
    rejected as soon as [q1] is. *)
Theorem query_keys_apply_in_sequence
    (RegExp_new : string -> outcome matcher) (records : list value)
    (q1 q2 : Query) (options : option EndRule) :
  evaluate RegExp_new records (q1 ++ q2) options
  = (kept <-- evaluate RegExp_new records q1 None ;;
     evaluate RegExp_new kept q2 options).
Proof.
  rewrite !evaluate_pipeline, narrow_app.
  destruct (narrow RegExp_new q1 records) as [ys|e]; simpl; [|done].
  by rewrite evaluate_pipeline.
Qed.

Lemma ofilter_sublist {A} (p : A -> outcome bool) (xs ys : list A) :
  ofilter p xs = Ok ys -> sublist ys xs.
Proof.
  revert ys. induction xs as [|x xs IH]; intros ys; simpl.
  - intros [= <-]. constructor.
  - destruct (p x) as [b|]; simpl; [|done].
    destruct (ofilter p xs) as [zs|]; simpl; [|done].
    intros [= <-]. destruct b; [apply sublist_skip|apply sublist_cons]; by apply IH.
Qed.

Lemma text_records_sublist (re : matcher) (lastIndex : nat)
    (xs ys : list value) :
  text_records re lastIndex xs = Ok ys -> sublist ys xs.
Proof.
  revert lastIndex ys. induction xs as [|x xs IH]; intros lastIndex ys; simpl.
  - intros [= <-]. constructor.
  - destruct (Object_values x) as [vals|]; simpl; [|done].
    destruct (text_tests re lastIndex vals) as [r|]; simpl; [|done].
    destruct (text_records re (snd r) xs) as [zs|] eqn:Hzs; simpl; [|done].
    intros [= <-].
    destruct (some (fst r)); [apply sublist_skip|apply sublist_cons];
      by eapply IH.
Qed.

Lemma entry_records_sublist (RegExp_new : string -> outcome matcher)
    (entry : query_entry) (xs ys : list value) :
  entry_records RegExp_new entry xs = Ok ys -> sublist ys xs.
Proof.
  destruct entry as [opts|opts|phrase|key rule]; simpl;
    try apply ofilter_sublist.
  unfold text_search.
  destruct (text_pattern phrase) as [source|]; simpl; [|done].
  destruct (RegExp_new source) as [re|]; simpl; [|done].
  apply text_records_sublist.
Qed.

Lemma narrow_sublist (RegExp_new : string -> outcome matcher) (query : Query)
    (xs ys : list value) :
  narrow RegExp_new query xs = Ok ys -> sublist ys xs.
Proof.
  revert xs. induction query as [|entry query IH]; intros xs; simpl.
  - by intros [= <-].
  - destruct (entry_records RegExp_new entry xs) as [zs|] eqn:Hzs; simpl; [|done].
    intros Hys%IH. etrans; [exact Hys|]. by eapply entry_records_sublist.
Qed.

Lemma sorted_by_perm (opt : ParamEndRule) (ks : list string)
    (xs ys : list value) :
  sorted_by opt ks xs = Ok ys -> ys ≡ₚ xs.
Proof.
  revert xs. induction ks as [|k ks IH]; intros xs; simpl.
  - by intros [= <-].
  - destruct (sorted_list (compare_by opt k) xs) as [zs|] eqn:Hzs; simpl; [|done].
    intros Hys%IH. rewrite Hys. by eapply sorted_list_perm.
Qed.

(** X5. A call that resolves invents no record and repeats none: the result
    is the projection, record by record, of a reordering of a subsequence of
    the loaded records.  Without a sort the subsequence is not reordered, and
    without a projection its records are returned as they were loaded. *)
Theorem find_returns_loaded_records
    (JSON_parse : string -> outcome value)
    (RegExp_new : string -> outcome matcher)
    (db : Database) (fs : filesystem) (query : Query)
    (options : option EndRule) (result : list value) :
  find_result JSON_parse RegExp_new db fs query options = Ok result ->
  exists str records kept ordered,
    readFile fs (filename db) = Ok str /\
    load JSON_parse str = Ok records /\
    sublist kept records /\
    ordered ≡ₚ kept /\
    ((forall o, options = Some o -> end_sort o = None) -> ordered = kept) /\
    match options with
    | Some {| end_projection := Some p |} =>
        omap (project_record (keys p)) ordered = Ok result
    | _ => result = ordered
    end.
Proof.
  destruct (readFile fs (filename db)) as [str|] eqn:Hread;
    [|by rewrite (find_result_read_error JSON_parse RegExp_new db fs query
                    options _ Hread)].
  destruct (load JSON_parse str) as [records|] eqn:Hload;
    [|by rewrite (find_result_parse_error JSON_parse RegExp_new db fs query
                    options _ _ Hread Hload)].
  rewrite (find_result_loaded JSON_parse RegExp_new db fs query options
             str records Hread Hload), evaluate_pipeline.
  destruct (narrow RegExp_new query records) as [kept|] eqn:Hkept; simpl; [|done].
  apply narrow_sublist in Hkept. intros Hshape.
  exists str, records, kept. destruct options as [[p s]|]; simpl in *.
  - destruct (match s with
              | Some s0 => sorted_by s0 (keys s0) kept
              | None => Ok kept
              end) as [ordered|] eqn:Hordered; simpl in Hshape; [|done].
    exists ordered. repeat split; try done.
    + destruct s as [s|]; [by eapply sorted_by_perm|by injection Hordered as <-].
    + intros Hnosort. specialize (Hnosort _ eq_refl). simpl in Hnosort.
      subst s. by injection Hordered as <-.
    + destruct p as [p|]; [done|by injection Hshape as <-].
  - injection Hshape as <-. exists kept. repeat split; done.
Qed.

Lemma find_returns_loaded_records_witness :
  exists kept ordered,
    sublist kept [Ann; Bo; Cy] /\ ordered ≡ₚ kept /\
    omap (project_record ["name"]) ordered
    = Ok [VObj [("name", VStr "Ann")]; VObj [("name", VStr "Cy")]].
Proof.
  destruct (find_returns_loaded_records JSON_text RegExp_word example_db
              example_fs [QField "age" (Some (gt_rule 21))]
              (Some example_end_rule)
              [VObj [("name", VStr "Ann")]; VObj [("name", VStr "Cy")]]
              eq_refl)
    as (str & records & kept & ordered & Hread & Hload & Hkept & Hord & _ & Hres).
  exists kept, ordered. injection Hread as <-.
  change (load JSON_text example_store) with (Ok [Ann; Bo; Cy]) in Hload.
  injection Hload as <-. split; [exact Hkept|]. split; [exact Hord | exact Hres].
Defined.

(* ===================================================================== *)
(** ** Rules and combinators *)
(* ===================================================================== *)

Lemma check_true {A} (present : option A) (test : A -> outcome bool)
    (rest : outcome bool) :
  check present test rest = Ok true <->
  (forall operand, present = Some operand -> test operand = Ok true) /\
  rest = Ok true.
Proof.
  destruct present as [operand|]; simpl.
  - destruct (test operand) as [[]|e] eqn:Htest; simpl.
    + split; [|by intros [_ ->]].
      intros ->. split; [|done]. intros operand' Heq.
      by injection Heq as <-.
    + split; [done|]. intros [H _]. specialize (H _ eq_refl). congruence.
    + split; [done|]. intros [H _]. specialize (H _ eq_refl). congruence.
  - split; [intros ->; by split|by intros [_ ->]].
Qed.

(** X6. The operators of a rule are conjoined: a rule passes exactly when
    each operator it names passes; [$in] with an undefined operand is tested
    against the empty array.  A rule that names no operator passes without
    reading the record, so it passes even a null record. *)
Theorem rule_is_conjunction_of_its_operators (data : value) (key : string)
    (r : QueryRule) :
  (ruleHeadless data key (Some r) = Ok true <->
   (forall v, rule_eq r = Some v -> op_eq data key v = Ok true) /\
   (forall v, rule_gt r = Some v -> op_gt data key v = Ok true) /\
   (forall v, rule_lt r = Some v -> op_lt data key v = Ok true) /\
   (forall vs, rule_in r = Some vs ->
               op_in data key (default [] vs) = Ok true)) /\
  ruleHeadless VNull key (Some empty_rule) = Ok true.
Proof.
  split; [|done]. unfold ruleHeadless. rewrite !check_true. tauto.
Qed.

(** X7. [{$gt: a, $lt: b}] selects the open interval: the rule passes exactly
    when the field holds a number strictly between [a] and [b]. *)
Theorem range_rule_is_open_interval (data : value) (key : string) (a b : Z) :
  ruleHeadless data key (Some (range_rule a b)) = Ok true <->
  exists z, getProp data key = Ok (VNum (Num z)) /\ a < z < b.
Proof.
  unfold ruleHeadless, range_rule, check, op_gt, op_lt. simpl.
  destruct (getProp data key) as [val|e]; simpl.
  - destruct val as [| |b0|[|z]|s|xs|o|name]; simpl;
      try (split; [done|by intros (z & [= ] & _)]).
    destruct (Z.ltb_spec a z) as [Ha|Ha]; simpl.
    + destruct (Z.ltb_spec z b) as [Hb|Hb]; simpl.
      * split; [by exists z|done].
      * split; [done|]. intros (z' & [= <-] & Hz). lia.
    + split; [done|]. intros (z' & [= <-] & Hz). lia.
  - split; [done|]. by intros (z & [= ] & _).
Qed.

Lemma strict_eq_sym (a b : value) : strict_eq a b = strict_eq b a.
Proof.
  destruct a as [| | |[|x]| | | |], b as [| | |[|y]| | | |]; simpl; try done.
  - apply Z.eqb_sym.
  - apply String.eqb_sym.
Qed.

Lemma includes_exists (vs : list value) (val : value) :
  includes vs val = true <-> exists v, In v vs /\ strict_eq val v = true.
Proof.
  unfold includes. rewrite existsb_exists.
  split; intros (v & Hv & Heq); exists v; by rewrite strict_eq_sym.
Qed.

Lemma includes_perm (vs vs' : list value) (val : value) :
  vs ≡ₚ vs' -> includes vs val = includes vs' val.
Proof.
  intros Hperm. apply eq_true_iff_eq. rewrite !includes_exists.
  split; intros (v & Hv & Heq); exists v; (split; [|done]).
  - by eapply Permutation_in.
  - eapply Permutation_in; [symmetry; exact Hperm|done].
Qed.

(** X8. [$in] is membership: it passes exactly when [$eq] passes for some
    element of the array; the order of the array does not matter; and an
    empty array passes no record. *)
Theorem in_is_some_eq (data : value) (key : string) (vs vs' : list value) :
  (op_in data key vs = Ok true <->
   exists v, In v vs /\ op_eq data key v = Ok true) /\
  (vs ≡ₚ vs' -> op_in data key vs = op_in data key vs') /\
  (op_in data key [] = Ok true -> False).
Proof.
  unfold op_in, op_eq.
  destruct (getProp data key) as [val|e]; simpl.
  - split; [|split].
    + destruct (typeof val) eqn:Hty;
        try (split; [done|by intros (v & _ & [= ])]).
      * split.
        -- intros [= (v & Hv & Heq)%includes_exists].
           exists v. by rewrite Heq.
        -- intros (v & Hv & [= Heq]). f_equal. apply includes_exists. eauto.
      * split.
        -- intros [= (v & Hv & Heq)%includes_exists].
           exists v. by rewrite Heq.
        -- intros (v & Hv & [= Heq]). f_equal. apply includes_exists. eauto.
    + intros Hperm. by destruct (typeof val); rewrite ?(includes_perm _ _ _ Hperm).
    + by destruct (typeof val).
  - split; [|split]; try done. split; [done|]. by intros (v & _ & [= ]).
Qed.

Lemma ofilter_ext {A} (p q : A -> outcome bool) (xs : list A) :
  (forall x, p x = q x) -> ofilter p xs = ofilter q xs.
Proof.
  intros Hpq. induction xs as [|x xs IH]; simpl; [done|]. by rewrite Hpq, IH.
Qed.

(** X9. A field rule at the top level of a query is the filter [$and] makes
    of that rule alone, and so is [$or] of that rule alone, exceptions
    included. *)
Theorem field_rule_is_and_or_of_one_rule (key : string)
    (opt : option QueryRule) (xs : list value) :
  and_records xs [[(key, opt)]]
    = ofilter (fun val => ruleHeadless val key opt) xs /\
  or_records xs [[(key, opt)]]
    = ofilter (fun val => ruleHeadless val key opt) xs.
Proof.
  split; apply ofilter_ext; intros x; unfold rule_sets_results, rule_closures,
    param_get; simpl; rewrite String.eqb_refl;
    by destruct (ruleHeadless x key opt) as [[]|].
Qed.

Lemma omap_app {A B} (f : A -> outcome B) (l1 l2 : list A) :
  omap f (l1 ++ l2) = (a <-- omap f l1 ;; b <-- omap f l2 ;; Ok (a ++ b)).
Proof.
  induction l1 as [|x l1 IH]; simpl.
  - by destruct (omap f l2).
  - destruct (f x) as [y|]; simpl; [|done]. rewrite IH.
    destruct (omap f l1) as [a|]; simpl; [|done].
    by destruct (omap f l2).
Qed.

Lemma rule_sets_results_app (o1 o2 : list Param) (val : value) :
  rule_sets_results (rule_closures (o1 ++ o2)) val
  = (a <-- rule_sets_results (rule_closures o1) val ;;
     b <-- rule_sets_results (rule_closures o2) val ;; Ok (a ++ b)).
Proof.
  unfold rule_sets_results, rule_closures. by rewrite map_app, omap_app.
Qed.

Lemma and_test_app (o1 o2 : list Param) (val : value) (b : bool) :
  and_test (o1 ++ o2) val = Ok b ->
  exists b1 b2, and_test o1 val = Ok b1 /\ and_test o2 val = Ok b2 /\
                b = b1 && b2.
Proof.
  unfold and_test. rewrite rule_sets_results_app.
  destruct (rule_sets_results (rule_closures o1) val) as [a1|]; simpl; [|done].
  destruct (rule_sets_results (rule_closures o2) val) as [a2|]; simpl; [|done].
  intros [= <-]. exists (every a1), (every a2).
  unfold every. by rewrite forallb_app.
Qed.

Lemma or_test_app (o1 o2 : list Param) (val : value) (b : bool) :
  or_test (o1 ++ o2) val = Ok b ->
  exists b1 b2, or_test o1 val = Ok b1 /\ or_test o2 val = Ok b2 /\
                b = b1 || b2.
Proof.
  unfold or_test. rewrite rule_sets_results_app.
  destruct (rule_sets_results (rule_closures o1) val) as [a1|]; simpl; [|done].
  destruct (rule_sets_results (rule_closures o2) val) as [a2|]; simpl; [|done].
  intros [= <-]. exists (some a1), (some a2).
  unfold some. by rewrite existsb_app.
Qed.

(** What a filter keeps: the elements its test answers [true] for. *)
Lemma ofilter_In {A} (p : A -> outcome bool) (xs ys : list A) (x : A) :
  ofilter p xs = Ok ys -> (In x ys <-> In x xs /\ p x = Ok true).
Proof.
  revert ys. induction xs as [|x0 xs IH]; intros ys; simpl.
  - intros [= <-]. simpl. tauto.
  - destruct (p x0) as [b|] eqn:Hx0; simpl; [|done].
    destruct (ofilter p xs) as [zs|]; simpl; [|done].
    intros [= <-]. specialize (IH zs eq_refl). destruct b; simpl.
    + rewrite IH. split; [intros [<-|[]]; auto|]. intros [[<-|]]; auto.
    + rewrite IH. split; [intros []; auto|].
      intros [[<-|] Hx]; [congruence|auto].
Qed.

Lemma ofilter_tested {A} (p : A -> outcome bool) (xs ys : list A) (x : A) :
  ofilter p xs = Ok ys -> In x xs -> exists b, p x = Ok b.
Proof.
  revert ys. induction xs as [|x0 xs IH]; intros ys; simpl; [done|].
  destruct (p x0) as [b|] eqn:Hx0; simpl; [|done].
  destruct (ofilter p xs) as [zs|]; simpl; [|done].
  intros _ [<-|Hin]; [eauto|by eapply IH].
Qed.

Lemma ofilter_both {A} (p1 p2 p12 : A -> outcome bool) (xs zs : list A) :
  (forall x b, p12 x = Ok b ->
     exists b1 b2, p1 x = Ok b1 /\ p2 x = Ok b2 /\ b = b1 && b2) ->
  ofilter p12 xs = Ok zs ->
  exists ys, ofilter p1 xs = Ok ys /\ ofilter p2 ys = Ok zs.
Proof.
  intros Hp. revert zs. induction xs as [|x xs IH]; intros zs; simpl.
  - intros [= <-]. by exists [].
  - destruct (p12 x) as [b|] eqn:Hx; simpl; [|done].
    destruct (ofilter p12 xs) as [zs'|]; simpl; [|done].
    intros [= <-]. destruct (IH zs' eq_refl) as (ys & Hys & Hzs').
    destruct (Hp x b Hx) as (b1 & b2 & Hb1 & Hb2 & ->).
    rewrite Hb1, Hys. simpl. destruct b1; simpl.
    + exists (x :: ys). split; [done|]. simpl. by rewrite Hb2, Hzs'.
    + by exists ys.
Qed.

(** X10. [$and] of the rule sets [o1] followed by [o2] keeps what filtering by
    [o1] and then by [o2] keeps: when it resolves, so do the two filters in
    sequence, with the same records; a record is kept exactly when it passes
    [o1] and passes [o2]. *)
Theorem and_is_filters_in_sequence (xs zs : list value) (o1 o2 : list Param) :
  and_records xs (o1 ++ o2) = Ok zs ->
  (exists ys, and_records xs o1 = Ok ys /\ and_records ys o2 = Ok zs) /\
  (forall x, In x zs <->
             In x xs /\ and_test o1 x = Ok true /\ and_test o2 x = Ok true).
Proof.
  intros Hzs. split.
  - eapply ofilter_both; [|exact Hzs]. intros x b. apply and_test_app.
  - intros x. rewrite (ofilter_In _ _ _ x Hzs). split.
    + intros [Hx (b1 & b2 & -> & -> & Hb)%and_test_app].
      symmetry in Hb. apply andb_prop in Hb as [-> ->]. auto.
    + intros (Hx & H1 & H2). split; [done|].
      destruct (ofilter_tested _ _ _ x Hzs Hx) as [b Hb].
      change (and_test (o1 ++ o2) x = Ok b) in Hb.
      destruct (and_test_app _ _ _ _ Hb) as (b1 & b2 & Hb1 & Hb2 & ->).
      change (and_test (o1 ++ o2) x = Ok true). rewrite Hb.
      rewrite H1 in Hb1. rewrite H2 in Hb2.
      injection Hb1 as <-. by injection Hb2 as <-.
Qed.

Lemma and_is_filters_in_sequence_witness :
  exists ys,
    and_records [Ann; Bo; Cy] [[("age", Some (gt_rule 21))]] = Ok ys /\
    and_records ys [[("age", Some (lt_rule 28))]] = Ok [Cy].
Proof.
  exact (proj1 (and_is_filters_in_sequence [Ann; Bo; Cy] [Cy]
                  [[("age", Some (gt_rule 21))]]
                  [[("age", Some (lt_rule 28))]] eq_refl)).
Defined.

(** X11. [$or] of the rule sets [o1] followed by [o2] keeps the union: when it
    resolves, so do [$or] of [o1] and [$or] of [o2] on the same records, and a
    record is kept exactly when one of the two keeps it. *)
Theorem or_is_union (xs zs : list value) (o1 o2 : list Param) :
  or_records xs (o1 ++ o2) = Ok zs ->
  exists ys1 ys2,
    or_records xs o1 = Ok ys1 /\ or_records xs o2 = Ok ys2 /\
    forall x, In x zs <-> In x ys1 \/ In x ys2.
Proof.
  intros Hzs.
  assert (Htested : forall x, In x xs ->
            exists b1 b2, or_test o1 x = Ok b1 /\ or_test o2 x = Ok b2 /\
                          or_test (o1 ++ o2) x = Ok (b1 || b2)).
  { intros x Hx. destruct (ofilter_tested _ _ _ x Hzs Hx) as [b Hb].
    change (or_test (o1 ++ o2) x = Ok b) in Hb.
    destruct (or_test_app _ _ _ _ Hb) as (b1 & b2 & Hb1 & Hb2 & ->). eauto. }
  assert (Hok : forall o, (forall x, In x xs -> exists b, or_test o x = Ok b) ->
                          exists ys, ofilter (or_test o) xs = Ok ys).
  { intros o. clear. induction xs as [|x xs IH]; intros Hall; simpl; [eauto|].
    destruct (Hall x (or_introl eq_refl)) as [b ->]. simpl.
    destruct IH as [ys ->]; [intros; apply Hall; by right|]. simpl. eauto. }
  destruct (Hok o1) as [ys1 Hys1].
  { intros x Hx. destruct (Htested x Hx) as (b1 & _ & ? & _). eauto. }
  destruct (Hok o2) as [ys2 Hys2].
  { intros x Hx. destruct (Htested x Hx) as (_ & b2 & _ & ? & _). eauto. }
  exists ys1, ys2. split; [exact Hys1|]. split; [exact Hys2|].
  intros x. rewrite (ofilter_In _ _ _ x Hzs), (ofilter_In _ _ _ x Hys1),
    (ofilter_In _ _ _ x Hys2).
  change (In x xs /\ or_test (o1 ++ o2) x = Ok true <->
          In x xs /\ or_test o1 x = Ok true \/ In x xs /\ or_test o2 x = Ok true).
  split.
  - intros [Hx Hb]. destruct (Htested x Hx) as (b1 & b2 & Hb1 & Hb2 & Hb12).
    rewrite Hb in Hb12. injection Hb12 as Hb12. symmetry in Hb12.
    apply orb_prop in Hb12 as [-> | ->]; auto.
  - intros [[Hx Hb]|[Hx Hb]];
      destruct (Htested x Hx) as (b1 & b2 & Hb1 & Hb2 & Hb12);
      (split; [done|]); rewrite Hb12; f_equal.
    + rewrite Hb in Hb1. by injection Hb1 as <-.
    + rewrite Hb in Hb2. injection Hb2 as <-. apply orb_true_r.
Qed.

Lemma or_is_union_witness :
  exists ys1 ys2,
    or_records [Ann; Bo; Cy] [[("age", Some (lt_rule 22))]] = Ok ys1 /\
    or_records [Ann; Bo; Cy] [[("name", Some (eq_rule "Cy"))]] = Ok ys2 /\
    forall x, In x [Bo; Cy] <-> In x ys1 \/ In x ys2.
Proof.
  exact (or_is_union [Ann; Bo; Cy] [Bo; Cy]
           [[("age", Some (lt_rule 22))]] [[("name", Some (eq_rule "Cy"))]]
           eq_refl).
Defined.

(** What a filter keeps, as a list. *)
Lemma ofilter_filter {A} (p : A -> outcome bool) (xs ys : list A) :
  ofilter p xs = Ok ys ->
  ys = List.filter (fun x => match p x with Ok true => true | _ => false end) xs.
Proof.
  revert ys. induction xs as [|x xs IH]; intros ys; simpl.
  - by intros [= <-].
  - destruct (p x) as [b|]; simpl; [|done].
    destruct (ofilter p xs) as [zs|]; simpl; [|done].
    intros [= <-]. rewrite <- (IH zs eq_refl). by destruct b.
Qed.

Lemma filter_swap {A} (f g : A -> bool) (xs : list A) :
  List.filter f (List.filter g xs) = List.filter g (List.filter f xs).
Proof.
  induction xs as [|x xs IH]; simpl; [done|].
  destruct (g x) eqn:Hg, (f x) eqn:Hf; simpl; rewrite ?Hg, ?Hf, IH; done.
Qed.

Lemma entry_records_is_filter (RegExp_new : string -> outcome matcher)
    (entry : query_entry) :
  is_text entry = false ->
  exists p, forall xs, entry_records RegExp_new entry xs = ofilter p xs.
Proof. destruct entry; simpl; [eauto|eauto|done|eauto]. Qed.

(** X12. Two neighbouring keys of a query, neither of them [$text], can be
    exchanged: when the call resolves with either order, it resolves with the
    same records.  ([$text] is excluded: what it keeps depends on the records
    tested before, see C1.) *)
Theorem conditions_commute (RegExp_new : string -> outcome matcher)
    (records : list value) (q1 q2 : Query) (e1 e2 : query_entry)
    (options : option EndRule) (r r' : list value) :
  is_text e1 = false -> is_text e2 = false ->
  evaluate RegExp_new records (q1 ++ e1 :: e2 :: q2) options = Ok r ->
  evaluate RegExp_new records (q1 ++ e2 :: e1 :: q2) options = Ok r' ->
  r = r'.
Proof.
  intros [p1 Hp1]%(entry_records_is_filter RegExp_new)
         [p2 Hp2]%(entry_records_is_filter RegExp_new).
  rewrite !evaluate_pipeline, !narrow_app.
  destruct (narrow RegExp_new q1 records) as [xs|]; simpl; [|done].
  rewrite (Hp1 xs), (Hp2 xs).
  destruct (ofilter p1 xs) as [ys|] eqn:Hys; simpl; [|done].
  rewrite (Hp2 ys).
  destruct (ofilter p2 ys) as [zs|] eqn:Hzs; simpl; [|done].
  intros Hr.
  destruct (ofilter p2 xs) as [ys'|] eqn:Hys'; simpl; [|done].
  rewrite (Hp1 ys').
  destruct (ofilter p1 ys') as [zs'|] eqn:Hzs'; simpl; [|done].
  intros Hr'.
  apply ofilter_filter in Hys, Hzs, Hys', Hzs'. subst ys ys'.
  rewrite filter_swap in Hzs'. subst zs zs'. congruence.
Qed.

Lemma conditions_commute_witness :
  exists r r',
    evaluate RegExp_word [Ann; Bo; Cy]
      [QField "age" (Some (gt_rule 21)); QField "age" (Some (lt_rule 28))] None
    = Ok r /\
    evaluate RegExp_word [Ann; Bo; Cy]
      [QField "age" (Some (lt_rule 28)); QField "age" (Some (gt_rule 21))] None
    = Ok r' /\
    r = r'.
Proof.
  exists [Cy], [Cy]. split; [reflexivity|]. split; [reflexivity|].
  exact (conditions_commute RegExp_word [Ann; Bo; Cy] [] []
           (QField "age" (Some (gt_rule 21))) (QField "age" (Some (lt_rule 28)))
           None [Cy] [Cy] eq_refl eq_refl eq_refl eq_refl).
Defined.

(* ===================================================================== *)
(** ** The lines of the store *)
(* ===================================================================== *)

Lemma split_lines_app (s1 s2 : string) :
  split_lines (s1 ++ String LF s2)%string = split_lines s1 ++ split_lines s2.
Proof.
  induction s1 as [|c s1 IH]; simpl; [done|].
  rewrite IH. destruct (Ascii.eqb c LF); [done|].
  destruct (split_lines s1) as [|l ls] eqn:Hs1;
    [by destruct (split_lines_not_nil s1)|done].
Qed.

(** X1. The store is a log: the records of a text followed by a line feed and
    a second text are the records of the first followed by those of the
    second, and loading fails as the first of the two loads that fails. *)
Theorem load_of_appended_text (JSON_parse : string -> outcome value)
    (s1 s2 : string) :
  load JSON_parse (s1 ++ String LF s2)%string
  = (r1 <-- load JSON_parse s1 ;; r2 <-- load JSON_parse s2 ;; Ok (r1 ++ r2)).
Proof.
  unfold load. by rewrite split_lines_app, List.filter_app, omap_app.
Qed.

Lemma load_app (JSON_parse : string -> outcome value) (s1 s2 : string) :
  load JSON_parse (s1 ++ String LF s2)%string
  = (r1 <-- load JSON_parse s1 ;; r2 <-- load JSON_parse s2 ;; Ok (r1 ++ r2)).
Proof.
  unfold load. by rewrite split_lines_app, List.filter_app, omap_app.
Qed.

Lemma load_other_line (JSON_parse : string -> outcome value) (l : string) :
  first_is_E l = false -> one_line l -> load JSON_parse l = Ok [].
Proof.
  intros HE Hl. unfold load. rewrite (split_one_line l Hl). simpl. by rewrite HE.
Qed.

(** X2. A line that does not start with [E] (an empty line, a line with
    another tag) adds no record and is never parsed, wherever it stands: last
    (so a final line feed changes nothing), first, or between other lines. *)
Theorem other_lines_are_ignored (JSON_parse : string -> outcome value)
    (l s1 s2 : string) :
  first_is_E l = false -> one_line l ->
  load JSON_parse (s1 ++ String LF l)%string = load JSON_parse s1 /\
  load JSON_parse (l ++ String LF s2)%string = load JSON_parse s2 /\
  load JSON_parse (s1 ++ String LF (l ++ String LF s2))%string
    = load JSON_parse (s1 ++ String LF s2)%string.
Proof.
  intros HE Hl. pose proof (load_other_line JSON_parse l HE Hl) as Hload.
  rewrite !load_app, Hload. simpl.
  repeat split.
  - destruct (load JSON_parse s1) as [r1|]; simpl; [|done]. by rewrite app_nil_r.
  - by destruct (load JSON_parse s2).
  - by destruct (load JSON_parse s1), (load JSON_parse s2).
Qed.

Lemma other_lines_are_ignored_witness :
  load JSON_text (person_line "Ann" "30" ++ String LF ignored_line)%string
  = load JSON_text (person_line "Ann" "30").
Proof.
  apply (other_lines_are_ignored JSON_text ignored_line
           (person_line "Ann" "30") EmptyString); reflexivity.
Defined.

(* ===================================================================== *)
(** ** Arrays that sorting leaves as they are *)
(* ===================================================================== *)

Lemma sort_insert_last (comparefn : value -> value -> outcome number)
    (x : value) (s : list value) :
  Forall (fun y => stays_behind comparefn y x) s ->
  sort_insert comparefn x s = Ok (s ++ [x]).
Proof.
  induction 1 as [|y s (c & Hc & Hle) Hs IH]; simpl; [done|].
  by rewrite Hc; simpl; rewrite Hle, IH.
Qed.

Lemma StronglySorted_middle {A} (R : A -> A -> Prop) (l1 l2 : list A) (x : A) :
  StronglySorted R (l1 ++ x :: l2) -> Forall (fun y => R y x) l1.
Proof.
  induction l1 as [|a l1 IH]; simpl; [by constructor|].
  intros [Hrest Ha]%StronglySorted_inv. constructor; [|by apply IH].
  rewrite Forall_forall in Ha. apply Ha. apply list_elem_of_In, in_elt.
Qed.

Lemma sort_fold_fixed (comparefn : value -> value -> outcome number)
    (xs acc : list value) :
  StronglySorted (stays_behind comparefn) (acc ++ xs) ->
  fold_left (sort_step comparefn) xs (Ok acc) = Ok (acc ++ xs).
Proof.
  revert acc. induction xs as [|x xs IH]; intros acc Hsorted; simpl.
  - by rewrite app_nil_r.
  - rewrite (sort_insert_last comparefn x acc)
      by (by eapply StronglySorted_middle).
    rewrite (IH (acc ++ [x])) by (by rewrite <- app_assoc).
    by rewrite <- app_assoc.
Qed.

(** An array in which no record has to move is left as it is. *)
Lemma sorted_list_fixed (comparefn : value -> value -> outcome number)
    (xs : list value) :
  StronglySorted (stays_behind comparefn) xs -> sorted_list comparefn xs = Ok xs.
Proof. intros Hxs. by apply (sort_fold_fixed comparefn xs []). Qed.

Lemma in_order_stays_behind (opt : ParamEndRule) (k : string) (d : Z)
    (xs : list value) :
  obj_lookup opt k = Some (VNum (Num d)) -> Forall (numeric k) xs ->
  StronglySorted (in_order d k) xs ->
  StronglySorted (stays_behind (compare_by opt k)) xs.
Proof.
  intros Hd Hnum. induction 1 as [|x xs Hxs IH Hx]; [constructor|].
  inversion Hnum as [|? ? Hnx Hnxs]; subst.
  constructor; [by apply IH|].
  rewrite Forall_forall in Hx, Hnxs. apply Forall_forall. intros y Hy.
  exists (Num (d * (num_field k x - num_field k y))). split.
  - apply compare_by_numeric; auto.
  - simpl. specialize (Hx y Hy). unfold in_order in Hx. lia.
Qed.

(** X13. Sorting by one numeric field is idempotent: the array a sort leaves
    is left as it is by the same sort. More generally an array already in
    the order of the field is not changed (records with equal keys do not
    move). *)
Theorem sort_by_one_field_is_idempotent (opt : ParamEndRule) (k : string)
    (d : Z) (st st' : store) (arr r : loc) (xs : list value) :
  keys opt = [k] ->
  obj_lookup opt k = Some (VNum (Num d)) ->
  st !! arr = Some xs ->
  Forall (numeric k) xs ->
  (StronglySorted (in_order d k) xs -> sort arr opt st = Ok (arr, st)) /\
  (sort arr opt st = Ok (r, st') -> sort arr opt st' = Ok (arr, st')).
Proof.
  intros Hkeys Hd Harr Hnum.
  assert (Hfixed : forall st0 ys, st0 !! arr = Some ys -> Forall (numeric k) ys ->
            StronglySorted (in_order d k) ys -> sort arr opt st0 = Ok (arr, st0)).
  { intros st0 ys Hys Hnys Hsorted.
    change (sort arr opt st0) with (sort_passes arr opt (keys opt) st0).
    rewrite (sort_passes_contents arr opt (keys opt) st0 ys Hys), Hkeys. simpl.
    rewrite (sorted_list_fixed _ ys)
      by (by eapply in_order_stays_behind). simpl.
    by rewrite list_insert_id. }
  split; [by apply Hfixed|].
  change (sort arr opt st) with (sort_passes arr opt (keys opt) st).
  rewrite (sort_passes_contents arr opt (keys opt) st xs Harr), Hkeys. simpl.
  destruct (sorted_list_numeric opt k d Hd xs Hnum) as (zs & Hzs & Hsorted & _).
  rewrite Hzs. simpl. intros [= <- <-].
  assert (Hlt : (arr < length st)%nat) by (by eapply lookup_lt_Some).
  apply (Hfixed _ zs); [by apply list_lookup_insert_eq| |done].
  apply sorted_list_perm in Hzs.
  by apply (Permutation_Forall (Permutation_sym Hzs)).
Qed.

Lemma sort_by_one_field_is_idempotent_witness :
  sort 0%nat [("age", VNum (Num 1))] [[Ann; Bo; Cy]] = Ok (0%nat, [[Bo; Cy; Ann]]) /\
  sort 0%nat [("age", VNum (Num 1))] [[Bo; Cy; Ann]] = Ok (0%nat, [[Bo; Cy; Ann]]).
Proof.
  split; [reflexivity|].
  apply (sort_by_one_field_is_idempotent [("age", VNum (Num 1))] "age" 1
           [[Ann; Bo; Cy]] [[Bo; Cy; Ann]] 0%nat 0%nat [Ann; Bo; Cy]);
    try reflexivity.
  repeat constructor; eexists; reflexivity.
Defined.

Lemma sorted_by_small (opt : ParamEndRule) (ks : list string) (xs : list value) :
  (length xs <= 1)%nat -> sorted_by opt ks xs = Ok xs.
Proof.
  intros Hlen. induction ks as [|k ks IH]; simpl; [done|].
  destruct xs as [|x [|y xs]]; simpl in *; [exact IH|exact IH|lia].
Qed.

(** X14. [sort] never calls the comparator on an array of fewer than two
    records, nor when no field is listed: the array is left as it is and
    nothing is raised, even if its only record is null. *)
Theorem sort_leaves_small_arrays (opt : ParamEndRule) (st : store) (arr : loc)
    (xs : list value) :
  st !! arr = Some xs ->
  (length xs <= 1)%nat \/ keys opt = [] ->
  sort arr opt st = Ok (arr, st).
Proof.
  intros Harr Hsmall.
  change (sort arr opt st) with (sort_passes arr opt (keys opt) st).
  rewrite (sort_passes_contents arr opt (keys opt) st xs Harr).
  assert (Hxs : sorted_by opt (keys opt) xs = Ok xs).
  { destruct Hsmall as [Hlen| ->]; [by apply sorted_by_small|done]. }
  rewrite Hxs. by rewrite list_insert_id.
Qed.

Lemma sort_leaves_small_arrays_witness :
  sort 0%nat [("age", VNum (Num 1))] [[VNull]] = Ok (0%nat, [[VNull]]).
Proof.
  apply (sort_leaves_small_arrays [("age", VNum (Num 1))] [[VNull]] 0%nat [VNull]);
    [reflexivity|left; simpl; lia].
Defined.

Lemma StronglySorted_pairwise {A} (R : A -> A -> Prop) (xs : list A) :
  (forall y x, In y xs -> In x xs -> R y x) -> StronglySorted R xs.
Proof.
  induction xs as [|a xs IH]; intros HR; constructor.
  - apply IH. intros y x Hy Hx. apply HR; by right.
  - apply Forall_forall. intros x Hx%list_elem_of_In.
    apply HR; [by left|by right].
Qed.

Lemma compare_by_no_direction (opt : ParamEndRule) (k : string) (v : value)
    (y x : value) :
  obj_lookup opt k = Some v -> ToNumber v = Ok NaN ->
  numeric k y -> numeric k x ->
  stays_behind (compare_by opt k) y x.
Proof.
  intros Hv Hnan [a Hy] [b Hx]. exists NaN. split; [|done].
  unfold compare_by. rewrite Hy, Hx. simpl. rewrite Hv. simpl. by rewrite Hnan.
Qed.

Lemma sorted_by_no_direction (opt : ParamEndRule) (ks : list string)
    (xs : list value) :
  (forall k, In k ks ->
     exists v, obj_lookup opt k = Some v /\ ToNumber v = Ok NaN) ->
  Forall (fun x => forall k, In k ks -> numeric k x) xs ->
  sorted_by opt ks xs = Ok xs.
Proof.
  intros Hdir Hnum. induction ks as [|k ks IH]; simpl; [done|].
  rewrite sorted_list_fixed; simpl.
  - apply IH; [intros; apply Hdir; by right|].
    eapply Forall_impl; [exact Hnum|]. simpl. intros x Hx k' Hk'.
    apply Hx. by right.
  - destruct (Hdir k (or_introl eq_refl)) as (v & Hv & Hnan).
    rewrite Forall_forall in Hnum.
    apply StronglySorted_pairwise. intros y x Hy%list_elem_of_In Hx%list_elem_of_In.
    eapply compare_by_no_direction; [done|done| |].
    + apply (Hnum y Hy). by left.
    + apply (Hnum x Hx). by left.
Qed.

(** X15. A direction that is not a number (undefined, an object, a word such
    as "desc") does not sort: the comparator then answers NaN for every pair,
    which counts as equal, and records holding numbers in the listed fields
    are left in the order they had. *)
Theorem sort_without_numeric_direction_keeps_order (opt : ParamEndRule)
    (st : store) (arr : loc) (xs : list value) :
  st !! arr = Some xs ->
  (forall k, In k (keys opt) ->
     exists v, obj_lookup opt k = Some v /\ ToNumber v = Ok NaN) ->
  Forall (fun x => forall k, In k (keys opt) -> numeric k x) xs ->
  sort arr opt st = Ok (arr, st).
Proof.
  intros Harr Hdir Hnum.
  change (sort arr opt st) with (sort_passes arr opt (keys opt) st).
  rewrite (sort_passes_contents arr opt (keys opt) st xs Harr).
  rewrite (sorted_by_no_direction opt (keys opt) xs Hdir Hnum).
  by rewrite list_insert_id.
Qed.

Lemma sort_without_numeric_direction_keeps_order_witness :
  sort 0%nat [("age", VStr "desc")] [[Ann; Bo; Cy]] = Ok (0%nat, [[Ann; Bo; Cy]]).
Proof.
  apply (sort_without_numeric_direction_keeps_order [("age", VStr "desc")]
           [[Ann; Bo; Cy]] 0%nat [Ann; Bo; Cy]).
  - reflexivity.
  - intros k [<-|[]]. exists (VStr "desc"). split; reflexivity.
  - repeat constructor; intros k [<-|[]]; eexists; reflexivity.
Defined.

(* ===================================================================== *)
(** ** Rules on projected records *)
(* ===================================================================== *)

Lemma ruleHeadless_same_field (d1 d2 : value) (key : string)
    (rule : option QueryRule) :
  getProp d1 key = getProp d2 key ->
  ruleHeadless d1 key rule = ruleHeadless d2 key rule.
Proof.
  intros H. destruct rule as [r|]; [|done].
  unfold ruleHeadless, check, op_eq, op_gt, op_lt, op_in. by rewrite H.
Qed.

Lemma project_record_field (fields : list string) (v p : value) (k : string) :
  In k fields -> k <> proto_name ->
  project_record fields v = Ok p -> getProp p k = getProp v k.
Proof.
  intros Hk Hne (-> & Hall & _)%project_record_ok.
  rewrite Forall_forall in Hall. rewrite (Hall k) by (by apply list_elem_of_In).
  by rewrite getProp_object, projected_field.
Qed.

(** The field [__proto__] does not survive: a record that owns it under a
    number passes [{$eq: 5}], and its projection on [__proto__], which has no
    such key, does not. *)
Example rule_on_proto_is_lost_by_projection :
  ruleHeadless (VObj [("__proto__", VNum (Num 5))]) "__proto__"
    (Some {| rule_eq := Some (VNum (Num 5)); rule_gt := None;
             rule_lt := None; rule_in := None |}) = Ok true /\
  project_record ["__proto__"] (VObj [("__proto__", VNum (Num 5))])
  = Ok (VObj []) /\
  ruleHeadless (VObj []) "__proto__"
    (Some {| rule_eq := Some (VNum (Num 5)); rule_gt := None;
             rule_lt := None; rule_in := None |}) = Ok false.
Proof. repeat split; reflexivity. Qed.

(** X16. Projection keeps what the rules see of a listed field other than
    [__proto__]: a rule on such a field answers on the projected record as on
    the record itself, so filtering projected records by the rule gives the
    projections of the records the rule keeps. *)
Theorem rule_on_listed_field_survives_projection (fields : list string)
    (k : string) (rule : option QueryRule) (xs ps qs : list value) :
  In k fields -> k <> proto_name ->
  omap (project_record fields) xs = Ok ps ->
  Forall2 (fun x p => ruleHeadless p k rule = ruleHeadless x k rule) xs ps /\
  (ofilter (fun val => ruleHeadless val k rule) ps = Ok qs ->
   exists ys, ofilter (fun val => ruleHeadless val k rule) xs = Ok ys /\
              omap (project_record fields) ys = Ok qs).
Proof.
  intros Hk Hne Hps%omap_Forall2. split.
  - eapply Forall2_impl; [exact Hps|]. simpl. intros x p Hp.
    apply ruleHeadless_same_field. by eapply project_record_field.
  - revert qs. induction Hps as [|x p xs ps Hp Hps IH]; intros qs; simpl.
    + intros [= <-]. by exists [].
    + rewrite <- (ruleHeadless_same_field p x k rule)
        by (by eapply project_record_field).
      destruct (ruleHeadless p k rule) as [b|]; simpl; [|done].
      destruct (ofilter (fun val => ruleHeadless val k rule) ps) as [qs'|];
        simpl; [|done].
      intros [= <-]. destruct (IH qs' eq_refl) as (ys & -> & Hys). simpl.
      destruct b.
      * exists (x :: ys). split; [done|]. simpl. by rewrite Hp, Hys.
      * by exists ys.
Qed.

Lemma rule_on_listed_field_survives_projection_witness :
  exists ys,
    ofilter (fun val => ruleHeadless val "age" (Some (gt_rule 21))) [Ann; Bo; Cy]
    = Ok ys /\
    omap (project_record ["age"]) ys
    = Ok [VObj [("age", VNum (Num 30))]; VObj [("age", VNum (Num 25))]].
Proof.
  destruct (rule_on_listed_field_survives_projection ["age"] "age"
              (Some (gt_rule 21)) [Ann; Bo; Cy]
              [VObj [("age", VNum (Num 30))]; VObj [("age", VNum (Num 20))];
               VObj [("age", VNum (Num 25))]]
              [VObj [("age", VNum (Num 30))]; VObj [("age", VNum (Num 25))]])
    as [_ H]; [by left|discriminate|reflexivity|].
  exact (H eq_refl).
Defined.

(* ===================================================================== *)
(** ** What the full-text filter keeps *)
(* ===================================================================== *)

Lemma toLocaleLowerCase_ok (s low : string) :
  toLocaleLowerCase s = Ok low -> low = lower_string s.
Proof.
  unfold toLocaleLowerCase. destruct (string_forall is_ascii7 s); [|done].
  by intros [= <-].
Qed.

Lemma RegExp_test_from_start (re : matcher) (s : string) :
  RegExp_test re 0 s
  = match re s 0%nat with Some e => (true, e) | None => (false, 0%nat) end.
Proof. unfold RegExp_test. by destruct s. Qed.

(** From [lastIndex = 0] the tests of one record find a match exactly when
    some string of the record has one, and leave [lastIndex] at 0 when none
    has. *)
Lemma text_tests_from_start (re : matcher) (vals : list value)
    (r : list bool * nat) :
  text_tests re 0 vals = Ok r ->
  some (fst r) = existsb (found re) vals /\
  (some (fst r) = false -> snd r = 0%nat).
Proof.
  revert r. induction vals as [|v vals IH]; intros r; simpl.
  - by intros [= <-].
  - assert (Hnot : forall r0,
              (rest <-- text_tests re 0 vals ;;
               Ok (false :: fst rest, snd rest)) = Ok r0 ->
              found re v = false ->
              some (fst r0) = found re v || existsb (found re) vals /\
              (some (fst r0) = false -> snd r0 = 0%nat)).
    { intros r0 Hr0 ->.
      destruct (text_tests re 0 vals) as [rest|]; simpl in Hr0; [|done].
      injection Hr0 as <-. simpl. by apply IH. }
    destruct v as [| | | |s| | |]; try (intros Hr; by apply Hnot).
    destruct (toLocaleLowerCase s) as [low|] eqn:Hlow; simpl; [|done].
    apply toLocaleLowerCase_ok in Hlow as ->.
    rewrite RegExp_test_from_start.
    destruct (re (lower_string s) 0%nat) as [e|] eqn:Hre; simpl.
    + destruct (text_tests re e vals) as [rest|]; simpl; [|done].
      intros [= <-]. by simpl.
    + destruct (text_tests re 0 vals) as [rest|]; simpl; [|done].
      intros [= <-]. simpl. by apply IH.
Qed.

Lemma text_tests_found (re : matcher) (lastIndex : nat) (vals : list value)
    (r : list bool * nat) :
  searches_forward re ->
  text_tests re lastIndex vals = Ok r ->
  some (fst r) = true -> existsb (found re) vals = true.
Proof.
  intros Hre. revert lastIndex r.
  induction vals as [|v vals IH]; intros lastIndex r; simpl.
  - by intros [= <-].
  - destruct (match v with
              | VStr s =>
                  low <-- toLocaleLowerCase s ;;
                  Ok (RegExp_test re lastIndex low)
              | _ => Ok (false, lastIndex)
              end) as [t|] eqn:Ht; simpl; [|done].
    destruct (text_tests re (snd t) vals) as [rest|] eqn:Hrest; simpl; [|done].
    intros [= <-]. simpl.
    destruct (fst t) eqn:Hfst; simpl.
    + intros _. apply orb_true_iff. left.
      destruct v as [| | | |s| | |]; try (injection Ht as <-; done).
      destruct (toLocaleLowerCase s) as [low|] eqn:Hlow; simpl in Ht; [|done].
      apply toLocaleLowerCase_ok in Hlow as ->. injection Ht as <-.
      unfold RegExp_test in Hfst. simpl.
      destruct (String.length (lower_string s) <? lastIndex)%nat; [done|].
      destruct (re (lower_string s) lastIndex) as [e|] eqn:He; [|done].
      specialize (Hre _ _ _ He).
      by destruct (re (lower_string s) 0%nat).
    + intros Hsome. apply orb_true_iff. right. by eapply IH.
Qed.

Lemma text_records_found (re : matcher) (lastIndex : nat) (xs ys : list value) :
  searches_forward re ->
  text_records re lastIndex xs = Ok ys ->
  Forall (fun y => record_found re y = true) ys.
Proof.
  intros Hre. revert lastIndex ys.
  induction xs as [|x xs IH]; intros lastIndex ys; simpl.
  - intros [= <-]. constructor.
  - destruct (Object_values x) as [vals|] eqn:Hvals; simpl; [|done].
    destruct (text_tests re lastIndex vals) as [r|] eqn:Hr; simpl; [|done].
    destruct (text_records re (snd r) xs) as [rest|] eqn:Hrest; simpl; [|done].
    intros [= <-]. specialize (IH _ _ Hrest).
    destruct (some (fst r)) eqn:Hsome; [|done].
    constructor; [|done]. unfold record_found. rewrite Hvals.
    by eapply text_tests_found.
Qed.

Lemma text_records_first (re : matcher) (xs ys : list value) :
  text_records re 0 xs = Ok ys ->
  hd_error ys = hd_error (List.filter (record_found re) xs).
Proof.
  revert ys. induction xs as [|x xs IH]; intros ys; simpl.
  - by intros [= <-].
  - unfold record_found at 1.
    destruct (Object_values x) as [vals|] eqn:Hvals; simpl; [|done].
    destruct (text_tests re 0 vals) as [r|] eqn:Hr; simpl; [|done].
    destruct (text_tests_from_start _ _ _ Hr) as [Hsome Hzero].
    rewrite <- Hsome. destruct (some (fst r)).
    + destruct (text_records re (snd r) xs) as [rest|]; simpl; [|done].
      by intros [= <-].
    + rewrite (Hzero eq_refl).
      destruct (text_records re 0 xs) as [rest|] eqn:Hrest; simpl; [|done].
      intros [= <-]. by apply IH.
Qed.

(** X17. Whatever the pattern engine, [$text] always finds the first record
    that has a match: the first record of the result is the first record in
    which some string value matches, and the result is empty only if no
    record has a match.  (Records after the first match can be missed, see
    C1.) *)
Theorem text_search_finds_first_match
    (RegExp_new : string -> outcome matcher) (phrase : option string)
    (source : string) (re : matcher) (xs ys : list value) :
  text_pattern phrase = Ok source ->
  RegExp_new source = Ok re ->
  text_search RegExp_new xs phrase = Ok ys ->
  hd_error ys = hd_error (List.filter (record_found re) xs) /\
  (ys = [] <-> List.filter (record_found re) xs = []).
Proof.
  intros Hsource Hre. unfold text_search. rewrite Hsource. simpl.
  rewrite Hre. simpl. intros Hys%text_records_first.
  split; [done|].
  destruct ys, (List.filter (record_found re) xs); simpl in *; split; done.
Qed.

Lemma text_search_finds_first_match_witness :
  hd_error [VObj [("name", VStr "Ann")]]
  = hd_error (List.filter (record_found (word_matcher "ann"))
                [VObj [("name", VStr "Ann")]; VObj [("name", VStr "Ann Lee")]]).
Proof.
  exact (proj1 (text_search_finds_first_match RegExp_word (Some "ann"%string)
                  (backslash_b ++ "ann" ++ backslash_b)%string
                  (word_matcher "ann")
                  [VObj [("name", VStr "Ann")]; VObj [("name", VStr "Ann Lee")]]
                  [VObj [("name", VStr "Ann")]] eq_refl eq_refl eq_refl)).
Defined.

Lemma string_prefix_app (p s : string) : string_prefix p (p ++ s)%string = Some s.
Proof.
  induction p as [|c p IH]; simpl; [by destruct s|].
  by rewrite Ascii.eqb_refl.
Qed.

Lemma string_append_assoc (a b c : string) :
  ((a ++ b) ++ c)%string = (a ++ (b ++ c))%string.
Proof. induction a as [|x a IH]; simpl; [done|]. by rewrite IH. Qed.

Lemma string_rev_onto_app (s acc : string) :
  string_rev_onto s acc = (string_rev_onto s EmptyString ++ acc)%string.
Proof.
  revert acc. induction s as [|c s IH]; intros acc; simpl; [done|].
  rewrite (IH (String c acc)), (IH (String c EmptyString)).
  by rewrite string_append_assoc.
Qed.

Lemma string_append_nil (s : string) : (s ++ EmptyString)%string = s.
Proof. induction s as [|c s IH]; simpl; [done|]. by rewrite IH. Qed.

Lemma string_rev_app (a b : string) :
  string_rev (a ++ b) = (string_rev b ++ string_rev a)%string.
Proof.
  unfold string_rev. induction a as [|c a IH]; simpl.
  - by rewrite string_append_nil.
  - rewrite (string_rev_onto_app (a ++ b)), (string_rev_onto_app a), IH.
    by rewrite string_append_assoc.
Qed.

Lemma string_rev_involutive (s : string) : string_rev (string_rev s) = s.
Proof.
  induction s as [|c s IH]; [done|].
  change (String c s) with (String c EmptyString ++ s)%string at 1.
  by rewrite string_rev_app, string_rev_app, IH.
Qed.

Lemma strip_suffix_app (suffix w : string) :
  strip_suffix suffix (w ++ suffix) = Some w.
Proof.
  unfold strip_suffix.
  by rewrite string_rev_app, string_prefix_app, string_rev_involutive.
Qed.

Lemma word_char_lower (c : ascii) :
  is_word_char c = true ->
  is_word_char (lower_char c) = true /\ is_ascii7 c = true.
Proof.
  destruct c as [[] [] [] [] [] [] [] []]; vm_compute; intros H;
    (discriminate H || (split; reflexivity)).
Qed.

Lemma word_lower (w : string) :
  string_forall is_word_char w = true ->
  string_forall is_word_char (lower_string w) = true /\
  string_forall is_ascii7 w = true.
Proof.
  induction w as [|c w IH]; simpl; [done|].
  intros [[Hc Ha]%word_char_lower [Hw Hw']%IH]%andb_prop.
  by rewrite Hc, Ha, Hw, Hw'.
Qed.

(** The reference pattern of a phrase made of word characters. *)
Lemma RegExp_word_of_phrase (phrase : string) :
  string_forall is_word_char phrase = true ->
  exists source,
    text_pattern (Some phrase) = Ok source /\
    RegExp_word source = Ok (word_matcher (lower_string phrase)).
Proof.
  intros [Hword Hascii]%word_lower.
  exists (backslash_b ++ lower_string phrase ++ backslash_b)%string. split.
  - unfold text_pattern, toLocaleLowerCase. by rewrite Hascii.
  - unfold RegExp_word. rewrite string_prefix_app, strip_suffix_app.
    by rewrite Hword.
Qed.

Lemma search_from_found (w s : string) (j fuel e : nat) :
  search_from w s j fuel = Some e ->
  exists j', (j <= j' < j + fuel)%nat /\ match_at w s j' = true.
Proof.
  revert j. induction fuel as [|fuel IH]; intros j; simpl; [done|].
  destruct (match_at w s j) eqn:Hj.
  - intros _. exists j. split; [lia|done].
  - intros (j' & Hj' & Hm)%IH. exists j'. split; [lia|done].
Qed.

Lemma search_from_finds (w s : string) (j j' fuel : nat) :
  (j <= j' < j + fuel)%nat -> match_at w s j' = true ->
  search_from w s j fuel <> None.
Proof.
  revert j. induction fuel as [|fuel IH]; intros j Hj' Hm; simpl; [lia|].
  destruct (match_at w s j) eqn:Hj; [done|].
  apply IH; [|done]. destruct (Nat.eq_dec j j') as [->|]; [congruence|lia].
Qed.

Lemma word_matcher_searches_forward (w : string) :
  searches_forward (word_matcher w).
Proof.
  intros s i e. unfold word_matcher.
  intros (j' & Hj' & Hm)%search_from_found.
  apply (search_from_finds w s 0 j'); [lia|done].
Qed.

(** X18. For a phrase made of word characters, [$text] never keeps a record
    without a match: every record of the result comes from the input, in its
    order, and has a string value holding the lower-cased phrase as a whole
    word.  The filter can miss records (C1) but adds none. *)
Theorem text_search_keeps_only_matches (phrase : string) (xs ys : list value) :
  string_forall is_word_char phrase = true ->
  text_search RegExp_word xs (Some phrase) = Ok ys ->
  sublist ys xs /\ Forall (fun y => spec_text_keeps phrase y = true) ys.
Proof.
  intros (source & Hsource & Hre)%RegExp_word_of_phrase.
  unfold text_search. rewrite Hsource. simpl. rewrite Hre. simpl.
  intros Hys. split; [by eapply text_records_sublist|].
  apply (text_records_found _ _ _ _
           (word_matcher_searches_forward (lower_string phrase)) Hys).
Qed.

Lemma text_search_keeps_only_matches_witness :
  sublist [VObj [("name", VStr "Ann")]]
          [VObj [("name", VStr "Ann")]; VObj [("name", VStr "Ann Lee")]] /\
  Forall (fun y => spec_text_keeps "ann" y = true) [VObj [("name", VStr "Ann")]].
Proof.
  exact (text_search_keeps_only_matches "ann"
           [VObj [("name", VStr "Ann")]; VObj [("name", VStr "Ann Lee")]]
           [VObj [("name", VStr "Ann")]] eq_refl eq_refl).
Defined.

(* ===================================================================== *)
(** ** [$and] against [$or] *)
(* ===================================================================== *)

Lemma omap_length {A B} (f : A -> outcome B) (xs : list A) (ys : list B) :
  omap f xs = Ok ys -> length ys = length xs.
Proof.
  rewrite omap_Forall2. induction 1; simpl; [done|]. by f_equal.
Qed.

Lemma every_some (bs : list bool) : bs <> [] -> every bs = true -> some bs = true.
Proof. destruct bs as [|[] bs]; simpl; done. Qed.

Lemma ofilter_weaker {A} (p q : A -> outcome bool) (xs ys : list A) :
  (forall x b, p x = Ok b -> exists b', q x = Ok b' /\ (b = true -> b' = true)) ->
  ofilter p xs = Ok ys ->
  exists zs, ofilter q xs = Ok zs /\ sublist ys zs.
Proof.
  intros Hpq. revert ys. induction xs as [|x xs IH]; intros ys; simpl.
  - intros [= <-]. by exists [].
  - destruct (p x) as [b|] eqn:Hx; simpl; [|done].
    destruct (ofilter p xs) as [ys'|]; simpl; [|done].
    intros [= <-]. destruct (IH ys' eq_refl) as (zs & -> & Hsub).
    destruct (Hpq x b Hx) as (b' & -> & Hb). simpl.
    destruct b; [rewrite (Hb eq_refl)|destruct b'].
    + exists (x :: zs). split; [done|by apply sublist_skip].
    + exists (x :: zs). split; [done|by apply sublist_cons].
    + by exists zs.
Qed.

(** X19. With the same rule sets, at least one of them, [$or] resolves
    whenever [$and] does, and what [$and] keeps is a subsequence of what
    [$or] keeps. *)
Theorem and_keeps_less_than_or (xs ys : list value) (opts : list Param) :
  opts <> [] ->
  and_records xs opts = Ok ys ->
  exists zs, or_records xs opts = Ok zs /\ sublist ys zs.
Proof.
  intros Hne. apply ofilter_weaker. intros x b.
  destruct (rule_sets_results (rule_closures opts) x) as [bs|] eqn:Hbs;
    simpl; [|done].
  intros [= <-]. exists (some bs). split; [done|]. apply every_some.
  apply omap_length in Hbs. unfold rule_closures in Hbs.
  rewrite length_map in Hbs. destruct bs, opts; simpl in *; done.
Qed.

Lemma and_keeps_less_than_or_witness :
  exists zs,
    or_records [Ann; Bo; Cy]
      [[("age", Some (gt_rule 21))]; [("name", Some (eq_rule "Cy"))]] = Ok zs /\
    sublist [Cy] zs.
Proof.
  apply (and_keeps_less_than_or [Ann; Bo; Cy] [Cy]
           [[("age", Some (gt_rule 21))]; [("name", Some (eq_rule "Cy"))]]);
    [discriminate|reflexivity].
Defined.

Lemma ofilter_all {A} (p : A -> outcome bool) (xs ys : list A) :
  (forall x b, p x = Ok b -> b = true) -> ofilter p xs = Ok ys -> ys = xs.
Proof.
  intros Hp. revert ys. induction xs as [|x xs IH]; intros ys; simpl.
  - by intros [= <-].
  - destruct (p x) as [b|] eqn:Hx; simpl; [|done].
    destruct (ofilter p xs) as [ys'|]; simpl; [|done].
    intros [= <-]. rewrite (Hp x b Hx). f_equal. by apply IH.
Qed.

(** X20. A rule set without rules, [{}], is satisfied by every record: [$and]
    of [[{}]] keeps all the records, null ones included, and [$or] keeps all
    the records as soon as one of its alternatives is [{}] (whereas [$or] of
    no alternative keeps none). *)
Theorem empty_rule_set_passes_everything (xs ys : list value)
    (before after : list Param) :
  and_records xs [[]] = Ok xs /\
  (or_records xs (before ++ [] :: after) = Ok ys -> ys = xs).
Proof.
  split.
  - unfold and_records. by apply ofilter_const_true.
  - apply ofilter_all. intros x b.
    rewrite rule_sets_results_app.
    destruct (rule_sets_results (rule_closures before) x) as [bs1|]; simpl;
      [|done].
    change (rule_closures ([] :: after)) with ([] :: rule_closures after).
    unfold rule_sets_results at 1. simpl.
    destruct (omap _ (rule_closures after)) as [bs2|]; simpl; [|done].
    intros [= <-]. unfold some. rewrite existsb_app. simpl. apply orb_true_r.
Qed.


(* ===================================================================== *)
(** ** When a call fails, and when it resolves *)
(* ===================================================================== *)
























